(** * Mac-Traker: discovery, classification, topology and tracing engine

    A shallow embedding of the backend's engine in Rocq, and the properties
    of it that the specification states.

    Part I holds the model, one module per source file:
      - [Py]             the Python string primitives the sources use
      - [PortUtils]      app/utils/port_utils.py
      - [Switch] ... [Db] app/db/models.py
      - [LldpDiscovery]  app/services/discovery/lldp_discovery.py
      - [Dict]           Python dictionaries with integer keys
      - [NetworkGraph]   app/services/network_graph.py
      - [Session]        the ORM session of app/db/database.py
      - [AlertService]   app/services/alerts/alert_service.py
      - [SnmpDiscovery]  app/services/discovery/snmp_discovery.py
    Part II holds the lemmas and theorems about the model.

    Conventions.  Python [int] is [Z].  Python [str] is [string]; interface
    names, host names and MAC addresses are ASCII text, and on ASCII text
    the functions of [Py] agree with Python's.  [None] is [None]. *)

From Stdlib Require Import List String Ascii Bool ZArith Lia Arith Sorted Permutation.
Import ListNotations.

(* ================================================================== *)
(** * Part I.  The model                                                *)
(* ================================================================== *)

(** ** Python string primitives *)

Module Py.

Local Open Scope char_scope.
Local Open Scope string_scope.

(** [c.isspace()] for an ASCII character: TAB, LF, VT, FF, CR, the four
    separators 0x1C-0x1F and the blank.  The regular expression class
    [\s] over [str] patterns uses the same table. *)
Definition is_space (c : ascii) : bool :=
  let n := nat_of_ascii c in
  (((9 <=? n) && (n <=? 13)) || ((28 <=? n) && (n <=? 31)) || (n =? 32))%nat.

(** [\d] on ASCII text. *)
Definition is_digit (c : ascii) : bool :=
  let n := nat_of_ascii c in ((48 <=? n) && (n <=? 57))%nat.

Definition is_empty (s : string) : bool :=
  match s with EmptyString => true | String _ _ => false end.

Fixpoint lstrip (s : string) : string :=
  match s with
  | EmptyString => EmptyString
  | String c s' => if is_space c then lstrip s' else s
  end.

Fixpoint rstrip (s : string) : string :=
  match s with
  | EmptyString => EmptyString
  | String c s' =>
      let r := rstrip s' in
      if is_space c && is_empty r then EmptyString else String c r
  end.

(** [s.strip()] *)
Definition strip (s : string) : string := lstrip (rstrip s).

(** [s.startswith(p)] *)
Fixpoint startswith (s p : string) {struct p} : bool :=
  match p with
  | EmptyString => true
  | String a p' =>
      match s with
      | EmptyString => false
      | String b s' => Ascii.eqb a b && startswith s' p'
      end
  end.

(** [s[n:]] *)
Fixpoint drop (n : nat) (s : string) : string :=
  match n with
  | O => s
  | S n' => match s with EmptyString => EmptyString | String _ s' => drop n' s' end
  end.

(** [s[:n]] *)
Fixpoint take (n : nat) (s : string) : string :=
  match n with
  | O => EmptyString
  | S n' => match s with EmptyString => EmptyString | String c s' => String c (take n' s') end
  end.

(** The character at the head of [s] satisfies [p] (a one-character
    lookahead [(?=...)]). *)
Definition head_is (p : ascii -> bool) (s : string) : bool :=
  match s with EmptyString => false | String c _ => p c end.

Definition lower_char (c : ascii) : ascii :=
  let n := nat_of_ascii c in
  if ((65 <=? n) && (n <=? 90))%nat then ascii_of_nat (n + 32) else c.

Definition upper_char (c : ascii) : ascii :=
  let n := nat_of_ascii c in
  if ((97 <=? n) && (n <=? 122))%nat then ascii_of_nat (n - 32) else c.

Fixpoint map_chars (f : ascii -> ascii) (s : string) : string :=
  match s with
  | EmptyString => EmptyString
  | String c s' => String (f c) (map_chars f s')
  end.

(** [s.lower()] and [s.upper()] *)
Definition lower : string -> string := map_chars lower_char.
Definition upper : string -> string := map_chars upper_char.

(** [sub in s] *)
Fixpoint contains (s sub : string) : bool :=
  startswith s sub ||
  match s with
  | EmptyString => false
  | String _ s' => contains s' sub
  end.

(** [s.replace(c, "")] for a one-character [c] *)
Fixpoint remove_char (c : ascii) (s : string) : string :=
  match s with
  | EmptyString => EmptyString
  | String a s' => if Ascii.eqb a c then remove_char c s' else String a (remove_char c s')
  end.

(** [x in xs] for a list of strings *)
Definition str_in (x : string) (xs : list string) : bool :=
  existsb (String.eqb x) xs.

End Py.

(** ** app/utils/port_utils.py *)

Module PortUtils.
Import Py.
Local Open Scope string_scope.

(** [re.sub('^' + lit, repl, name)]: the anchor lets the pattern match at
    the start of the string only, so at most one replacement is made. *)
Definition sub_prefix (lit repl name : string) : string :=
  if startswith name lit then repl ++ drop (String.length lit) name else name.

(** [re.sub('^' + lit + '(?=\d)', repl, name)] *)
Definition sub_prefix_before_digit (lit repl name : string) : string :=
  if startswith name lit && head_is is_digit (drop (String.length lit) name)
  then repl ++ drop (String.length lit) name
  else name.

(** [re.sub('^' + lit + '\s*', repl, name)]: the star is greedy, the match
    takes every blank that follows the literal. *)
Definition sub_prefix_spaces (lit repl name : string) : string :=
  if startswith name lit then repl ++ lstrip (drop (String.length lit) name) else name.

(** The six rewriting steps, in the order of the source. *)
Definition rewrite_prefix (name : string) : string :=
  let name := sub_prefix "XGigabitEthernet" "XGE" name in
  let name := sub_prefix_before_digit "XGi" "XGE" name in
  let name := sub_prefix "10GE" "XGE" name in
  let name := sub_prefix "GigabitEthernet" "GE" name in
  let name := sub_prefix_before_digit "Gi" "GE" name in
  let name := sub_prefix_spaces "Eth-Trunk" "Eth-Trunk" name in
  name.

Definition normalize_port_name (port_name : string) : string :=
  if is_empty port_name then port_name
  else rewrite_prefix (strip port_name).

End PortUtils.

(** ** app/db/models.py

    One record per table, with the columns the engine reads or writes.
    A nullable column is an [option]; a timestamp is a [Z]. *)

Module Switch.
Record t := mk {
  id : Z;
  hostname : string;
  ip_address : string
}.
End Switch.

Module Port.
Record t := mk {
  id : Z;
  switch_id : Z;
  port_name : string;
  port_index : option Z;
  port_type : string;
  vlan_id : option Z;
  is_uplink : bool;
  last_mac_count : Z;
  lldp_neighbor_name : option string;
  lldp_neighbor_type : option string
}.

Definition set_role (uplink : bool) (ty : string) (p : t) : t :=
  mk (id p) (switch_id p) (port_name p) (port_index p) ty (vlan_id p)
     uplink (last_mac_count p) (lldp_neighbor_name p) (lldp_neighbor_type p).

Definition set_last_mac_count (n : Z) (p : t) : t :=
  mk (id p) (switch_id p) (port_name p) (port_index p) (port_type p) (vlan_id p)
     (is_uplink p) n (lldp_neighbor_name p) (lldp_neighbor_type p).

(** [keep.lldp_neighbor_name = p.lldp_neighbor_name] and the three
    assignments that follow it in the port-merge pass. *)
Definition take_lldp (p keep : t) : t :=
  mk (id keep) (switch_id keep) (port_name keep) (port_index keep) (port_type p)
     (vlan_id keep) (is_uplink p) (last_mac_count keep)
     (lldp_neighbor_name p) (lldp_neighbor_type p).
End Port.

Module MacAddress.
Record t := mk {
  id : Z;
  mac_address : string;
  vendor_oui : option string;
  first_seen : Z;
  last_seen : Z;
  is_active : bool
}.

Definition touch (now : Z) (m : t) : t :=
  mk (id m) (mac_address m) (vendor_oui m) (first_seen m) now true.
End MacAddress.

Module MacLocation.
Record t := mk {
  id : Z;
  mac_id : Z;
  switch_id : Z;
  port_id : Z;
  vlan_id : option Z;
  seen_at : Z;
  is_current : bool
}.

Definition set_port_id (pid : Z) (l : t) : t :=
  mk (id l) (mac_id l) (switch_id l) pid (vlan_id l) (seen_at l) (is_current l).

Definition set_seen_at (now : Z) (l : t) : t :=
  mk (id l) (mac_id l) (switch_id l) (port_id l) (vlan_id l) now (is_current l).

Definition set_is_current (b : bool) (l : t) : t :=
  mk (id l) (mac_id l) (switch_id l) (port_id l) (vlan_id l) (seen_at l) b.

Definition set_id (i : Z) (l : t) : t :=
  mk i (mac_id l) (switch_id l) (port_id l) (vlan_id l) (seen_at l) (is_current l).
End MacLocation.

Module MacHistory.
Record t := mk {
  id : Z;
  mac_id : Z;
  switch_id : Z;
  port_id : Z;
  vlan_id : option Z;
  event_type : string;
  event_at : Z;
  previous_switch_id : option Z;
  previous_port_id : option Z
}.

Definition set_port_id (pid : Z) (h : t) : t :=
  mk (id h) (mac_id h) (switch_id h) pid (vlan_id h) (event_type h) (event_at h)
     (previous_switch_id h) (previous_port_id h).

Definition set_previous_port_id (pid : option Z) (h : t) : t :=
  mk (id h) (mac_id h) (switch_id h) (port_id h) (vlan_id h) (event_type h)
     (event_at h) (previous_switch_id h) pid.

Definition set_id (i : Z) (h : t) : t :=
  mk i (mac_id h) (switch_id h) (port_id h) (vlan_id h) (event_type h) (event_at h)
     (previous_switch_id h) (previous_port_id h).
End MacHistory.

Module TopologyLink.
Record t := mk {
  id : Z;
  local_switch_id : Z;
  local_port_id : Z;
  remote_switch_id : Z;
  remote_port_id : option Z;
  protocol : string
}.

Definition set_local_port_id (pid : Z) (l : t) : t :=
  mk (id l) (local_switch_id l) pid (remote_switch_id l) (remote_port_id l) (protocol l).

Definition set_remote_port_id (pid : option Z) (l : t) : t :=
  mk (id l) (local_switch_id l) (local_port_id l) (remote_switch_id l) pid (protocol l).
End TopologyLink.

Module Alert.
Record t := mk {
  id : Z;
  alert_type : string;
  mac_id : option Z;
  switch_id : option Z;
  port_id : option Z;
  created_at : Z
}.
End Alert.

(** The tables of the store.  A table is the list of its rows in the
    order a query without ORDER BY returns them (the order of insertion). *)
Module Db.
Record t := mk {
  switches : list Switch.t;
  ports : list Port.t;
  mac_addresses : list MacAddress.t;
  mac_locations : list MacLocation.t;
  mac_history : list MacHistory.t;
  topology_links : list TopologyLink.t;
  alerts : list Alert.t
}.

Definition empty : t := mk [] [] [] [] [] [] [].

Definition set_ports (x : list Port.t) (d : t) : t :=
  mk (switches d) x (mac_addresses d) (mac_locations d) (mac_history d)
     (topology_links d) (alerts d).
Definition set_mac_addresses (x : list MacAddress.t) (d : t) : t :=
  mk (switches d) (ports d) x (mac_locations d) (mac_history d)
     (topology_links d) (alerts d).
Definition set_mac_locations (x : list MacLocation.t) (d : t) : t :=
  mk (switches d) (ports d) (mac_addresses d) x (mac_history d)
     (topology_links d) (alerts d).
Definition set_mac_history (x : list MacHistory.t) (d : t) : t :=
  mk (switches d) (ports d) (mac_addresses d) (mac_locations d) x
     (topology_links d) (alerts d).
Definition set_topology_links (x : list TopologyLink.t) (d : t) : t :=
  mk (switches d) (ports d) (mac_addresses d) (mac_locations d) (mac_history d)
     x (alerts d).
Definition set_alerts (x : list Alert.t) (d : t) : t :=
  mk (switches d) (ports d) (mac_addresses d) (mac_locations d) (mac_history d)
     (topology_links d) x.
End Db.

(** Python truthiness of an optional string: [None] and the empty string
    are false. *)
Definition truthy (o : option string) : bool :=
  match o with
  | Some s => negb (Py.is_empty s)
  | None => false
  end.

Definition opt_Z_eqb (o : option Z) (z : Z) : bool :=
  match o with
  | Some x => Z.eqb x z
  | None => false
  end.

(** ** app/services/discovery/lldp_discovery.py: the port-merge pass *)

Module LldpDiscovery.

(** [db.query(MacLocation).filter(MacLocation.port_id == pid).count()] *)
Definition location_count (d : Db.t) (pid : Z) : nat :=
  List.length (filter (fun l => Z.eqb (MacLocation.port_id l) pid) (Db.mac_locations d)).

(** The grouping key of the first query: rows whose [port_index] is
    NULL or not positive are filtered out. *)
Definition port_key (p : Port.t) : option (Z * Z) :=
  match Port.port_index p with
  | Some i => if Z.ltb 0 i then Some (Port.switch_id p, i) else None
  | None => None
  end.

Definition key_eqb (a b : Z * Z) : bool :=
  Z.eqb (fst a) (fst b) && Z.eqb (snd a) (snd b).

Definition has_key (k : Z * Z) (p : Port.t) : bool :=
  match port_key p with
  | Some k' => key_eqb k' k
  | None => false
  end.

(** [db.query(Port).filter(Port.switch_id == sw, Port.port_index == idx).all()] *)
Definition in_group (k : Z * Z) (p : Port.t) : bool :=
  Z.eqb (Port.switch_id p) (fst k) && opt_Z_eqb (Port.port_index p) (snd k).

Definition ports_of_key (d : Db.t) (k : Z * Z) : list Port.t :=
  filter (in_group k) (Db.ports d).

Fixpoint dedup_keys (ks : list (Z * Z)) : list (Z * Z) :=
  match ks with
  | [] => []
  | k :: ks' => k :: filter (fun k' => negb (key_eqb k' k)) (dedup_keys ks')
  end.

(** The (switch_id, port_index) pairs held by more than one Port row:
    GROUP BY ... HAVING count(id) > 1.  Each pair is listed once. *)
Definition duplicates (d : Db.t) : list (Z * Z) :=
  dedup_keys
    (flat_map
       (fun p =>
          match port_key p with
          | Some k => if Nat.ltb 1 (List.length (filter (has_key k) (Db.ports d))) then [k] else []
          | None => []
          end)
       (Db.ports d)).

(** One round of the selection loop: [p] replaces [keep] when more
    locations point at it, or as many and it alone has a neighbor name. *)
Definition prefer (d : Db.t) (keep p : Port.t) : Port.t :=
  let keep_locs := location_count d (Port.id keep) in
  let p_locs := location_count d (Port.id p) in
  if Nat.ltb keep_locs p_locs then p
  else if Nat.eqb p_locs keep_locs
          && truthy (Port.lldp_neighbor_name p)
          && negb (truthy (Port.lldp_neighbor_name keep))
       then p
       else keep.

(** [keep = ports[0]; for p in ports[1:]: ...] *)
Definition choose_keep (d : Db.t) (p0 : Port.t) (rest : list Port.t) : Port.t :=
  fold_left (prefer d) rest p0.

Definition repoint_location (from to : Z) (l : MacLocation.t) : MacLocation.t :=
  if Z.eqb (MacLocation.port_id l) from then MacLocation.set_port_id to l else l.

Definition repoint_history (from to : Z) (h : MacHistory.t) : MacHistory.t :=
  let h := if Z.eqb (MacHistory.port_id h) from then MacHistory.set_port_id to h else h in
  if opt_Z_eqb (MacHistory.previous_port_id h) from
  then MacHistory.set_previous_port_id (Some to) h else h.

Definition repoint_link (from to : Z) (l : TopologyLink.t) : TopologyLink.t :=
  let l := if Z.eqb (TopologyLink.local_port_id l) from
           then TopologyLink.set_local_port_id to l else l in
  if opt_Z_eqb (TopologyLink.remote_port_id l) from
  then TopologyLink.set_remote_port_id (Some to) l else l.

(** The five bulk UPDATE statements and the DELETE of one duplicate. *)
Definition merge_port (from to : Z) (d : Db.t) : Db.t :=
  Db.mk (Db.switches d)
        (filter (fun p => negb (Z.eqb (Port.id p) from)) (Db.ports d))
        (Db.mac_addresses d)
        (map (repoint_location from to) (Db.mac_locations d))
        (map (repoint_history from to) (Db.mac_history d))
        (map (repoint_link from to) (Db.topology_links d))
        (Db.alerts d).

(** The merge loop over the rows of one group.  [keep] is the survivor
    as the session holds it; it may take over the neighbor data of a
    duplicate. *)
Fixpoint merge_loop (ps : list Port.t) (keep : Port.t) (d : Db.t) (merged : nat)
  : Port.t * Db.t * nat :=
  match ps with
  | [] => (keep, d, merged)
  | p :: ps' =>
      if Z.eqb (Port.id p) (Port.id keep) then merge_loop ps' keep d merged
      else
        let keep :=
          if truthy (Port.lldp_neighbor_name p) && negb (truthy (Port.lldp_neighbor_name keep))
          then Port.take_lldp p keep else keep in
        merge_loop ps' keep (merge_port (Port.id p) (Port.id keep) d) (S merged)
  end.

(** Writing the survivor back: the UPDATE of its row at the flush. *)
Definition store_port (keep : Port.t) (d : Db.t) : Db.t :=
  Db.set_ports
    (map (fun p => if Z.eqb (Port.id p) (Port.id keep) then keep else p) (Db.ports d)) d.

(** The body of [for switch_id, port_index, cnt in duplicates].  The
    DELETEs and the survivor's UPDATE reach the store at the flush that
    ends the pass; they are applied here at once, which no query of the
    pass can tell apart: the groups that follow select other
    (switch_id, port_index) pairs, and the row counts are on
    mac_locations, which the bulk UPDATEs change at once. *)
Definition merge_group (acc : Db.t * nat) (k : Z * Z) : Db.t * nat :=
  let '(d, merged) := acc in
  match ports_of_key d k with
  | [] => (d, merged)
  | p0 :: rest =>
      let keep := choose_keep d p0 rest in
      let '(keep', d', merged') := merge_loop (p0 :: rest) keep d merged in
      (store_port keep' d', merged')
  end.

Definition _cleanup_duplicate_ports (d : Db.t) : Db.t * nat :=
  fold_left merge_group (duplicates d) (d, O).

End LldpDiscovery.

(** ** Python dictionaries with integer keys

    A [dict] keeps its keys in the order of their first insertion; an
    assignment to a key that is present overwrites the value in place. *)

Module Dict.
Section WithValues.
Variable V : Type.

Definition t := list (Z * V).

Fixpoint get (m : t) (k : Z) : option V :=
  match m with
  | [] => None
  | (k', v) :: m' => if Z.eqb k' k then Some v else get m' k
  end.

(** [k in m] *)
Definition mem (m : t) (k : Z) : bool :=
  match get m k with Some _ => true | None => false end.

(** [m[k] = v] *)
Fixpoint set (m : t) (k : Z) (v : V) : t :=
  match m with
  | [] => [(k, v)]
  | (k', v') :: m' =>
      if Z.eqb k' k then (k', v) :: m' else (k', v') :: set m' k v
  end.

(** [m.keys()] *)
Definition keys (m : t) : list Z := map fst m.

End WithValues.
Arguments get {V} m k.
Arguments mem {V} m k.
Arguments set {V} m k v.
Arguments keys {V} m.
End Dict.

(** ** app/services/network_graph.py *)

Module NetworkGraph.

Record link_data := mk_link_data {
  link_id : Z;
  local_port_id : option Z;
  remote_port_id : option Z;
  protocol : string
}.

(** [self.adjacency]: switch_id -> {neighbor_id: link_data} *)
Definition adjacency_t := Dict.t (Dict.t link_data).

Record t := mk {
  adjacency : adjacency_t;
  core_switch_ids : list Z;
  node_count : nat;
  edge_count : nat;
  is_valid : bool
}.

(** [self.adjacency[sw.id] = {}] *)
Definition add_switch (adj : adjacency_t) (sw : Switch.t) : adjacency_t :=
  Dict.set adj (Switch.id sw) [].

(** [if k not in self.adjacency: self.adjacency[k] = {}] *)
Definition ensure (adj : adjacency_t) (k : Z) : adjacency_t :=
  if Dict.mem adj k then adj else Dict.set adj k [].

(** [self.adjacency[a][b] = data]; the row [a] is there when this runs. *)
Definition set_edge (adj : adjacency_t) (a b : Z) (data : link_data) : adjacency_t :=
  match Dict.get adj a with
  | Some row => Dict.set adj a (Dict.set row b data)
  | None => adj
  end.

(** The body of [for link in links]. *)
Definition add_link (adj : adjacency_t) (link : TopologyLink.t) : adjacency_t :=
  let l := TopologyLink.local_switch_id link in
  let r := TopologyLink.remote_switch_id link in
  let adj := ensure adj l in
  let adj := ensure adj r in
  let adj :=
    set_edge adj l r
      (mk_link_data (TopologyLink.id link)
                    (Some (TopologyLink.local_port_id link))
                    (TopologyLink.remote_port_id link)
                    (TopologyLink.protocol link)) in
  set_edge adj r l
    (mk_link_data (TopologyLink.id link)
                  (TopologyLink.remote_port_id link)
                  (Some (TopologyLink.local_port_id link))
                  (TopologyLink.protocol link)).

(** [connectivity.sort(key=lambda x: x[1], reverse=True)]: a stable sort,
    entries of equal degree keep their order. *)
Fixpoint insert_by_degree (x : Z * nat) (l : list (Z * nat)) : list (Z * nat) :=
  match l with
  | [] => [x]
  | y :: l' => if Nat.ltb (snd y) (snd x) then x :: l else y :: insert_by_degree x l'
  end.

Definition sort_by_degree (l : list (Z * nat)) : list (Z * nat) :=
  fold_left (fun acc x => insert_by_degree x acc) l [].

Definition build (d : Db.t) : t :=
  let adj := fold_left add_switch (Db.switches d) [] in
  let adj := fold_left add_link (Db.topology_links d) adj in
  let connectivity := map (fun kv => (fst kv, List.length (snd kv))) adj in
  mk adj
     (map fst (firstn 5 (sort_by_degree connectivity)))
     (List.length (Dict.keys (fold_left add_switch (Db.switches d) [])))
     (List.length (Db.topology_links d))
     true.

(** [self.adjacency.get(current, {}).keys()] *)
Definition neighbors (adj : adjacency_t) (current : Z) : list Z :=
  match Dict.get adj current with
  | Some row => Dict.keys row
  | None => []
  end.

(** The [for neighbor_id in ...] loop of one dequeued switch: either the
    target is met and the path is returned, or the loop ends with the
    visited set and the queue as it leaves them. *)
Fixpoint scan (to_switch_id : Z) (path : list Z) (ns : list Z)
              (visited : list Z) (queue : list (Z * list Z))
  : list Z + (list Z * list (Z * list Z)) :=
  match ns with
  | [] => inr (visited, queue)
  | neighbor_id :: ns' =>
      if Z.eqb neighbor_id to_switch_id then inl (path ++ [neighbor_id])
      else if existsb (Z.eqb neighbor_id) visited
           then scan to_switch_id path ns' visited queue
           else scan to_switch_id path ns'
                     (neighbor_id :: visited)
                     (queue ++ [(neighbor_id, path ++ [neighbor_id])])
  end.

(** The [while queue] loop.  [fuel] bounds the number of switches taken
    off the queue; [None] means the bound was hit, [Some r] that the loop
    ended by itself with the result [r]. *)
Fixpoint bfs (fuel : nat) (adj : adjacency_t) (to_switch_id : Z)
             (visited : list Z) (queue : list (Z * list Z))
  : option (option (list Z)) :=
  match fuel with
  | O => None
  | S fuel' =>
      match queue with
      | [] => Some None
      | (current, path) :: rest =>
          match scan to_switch_id path (neighbors adj current) visited rest with
          | inl found => Some (Some found)
          | inr (visited', queue') => bfs fuel' adj to_switch_id visited' queue'
          end
      end
  end.

(** Every switch id the adjacency mentions, as key or as neighbor. *)
Definition all_ids (adj : adjacency_t) : list Z :=
  Dict.keys adj ++ flat_map (fun kv => Dict.keys (snd kv)) adj.

(** A switch is queued at most once, so no more switches leave the queue
    than the adjacency mentions; one more turn sees the queue empty. *)
Definition enough_fuel (adj : adjacency_t) : nat := S (List.length (all_ids adj)).

Definition find_path (g : t) (from_switch_id to_switch_id : Z) : option (list Z) :=
  let adj := adjacency g in
  if negb (Dict.mem adj from_switch_id) || negb (Dict.mem adj to_switch_id) then None
  else if Z.eqb from_switch_id to_switch_id then Some [from_switch_id]
  else
    match bfs (enough_fuel adj) adj to_switch_id
              [from_switch_id] [(from_switch_id, [from_switch_id])] with
    | Some r => r
    | None => None
    end.

(** The body of [for core_id in self.core_switch_ids] in
    [find_path_to_core]; [if path:] holds for a list that is not empty. *)
Definition nearer_core (g : t) (switch_id : Z)
                       (shortest_path : option (list Z)) (core_id : Z)
  : option (list Z) :=
  match find_path g switch_id core_id with
  | Some (x :: path') =>
      let path := x :: path' in
      match shortest_path with
      | None => Some path
      | Some sp =>
          if Nat.ltb (List.length path) (List.length sp) then Some path
          else shortest_path
      end
  | _ => shortest_path
  end.

Definition find_path_to_core (g : t) (switch_id : Z) : option (list Z) :=
  match core_switch_ids g with
  | [] => None
  | _ => fold_left (nearer_core g switch_id) (core_switch_ids g) None
  end.

End NetworkGraph.

(** ** The ORM session (app/db/database.py)

    [SessionLocal = sessionmaker(autocommit=False, autoflush=False, ...)]:
    a query is evaluated by the store on the rows flushed so far; it does
    not flush the session first.  An object handed back by a query is the
    one the session already holds for that primary key, with the values
    assigned to its attributes since the last flush; an object added with
    [db.add] is not in the store, and no query returns it, until the next
    flush.  The store accepts every flush and commit (the [except] branches
    that roll back are not modelled). *)

Module Session.

Record t := mk {
  durable : Db.t;                         (* the last committed state *)
  store : Db.t;                           (* the rows the statements of the open transaction see *)
  mem : Db.t;                             (* the same rows with the attribute values the session holds *)
  pending_locations : list MacLocation.t; (* added, not yet flushed; ids are given at the flush *)
  pending_history : list MacHistory.t;
  log : list Db.t                         (* every committed state so far, oldest first *)
}.

(** A session opened on the committed state [d]. *)
Definition open (d : Db.t) : t := mk d d d [] [] [].

Definition next_id (ids : list Z) : Z := Z.succ (fold_left Z.max ids 0%Z).

Fixpoint number_locations (n : Z) (l : list MacLocation.t) : list MacLocation.t :=
  match l with
  | [] => []
  | x :: l' => MacLocation.set_id n x :: number_locations (Z.succ n) l'
  end.

Fixpoint number_history (n : Z) (l : list MacHistory.t) : list MacHistory.t :=
  match l with
  | [] => []
  | x :: l' => MacHistory.set_id n x :: number_history (Z.succ n) l'
  end.

(** [db.flush()]: the UPDATEs of the modified objects and the INSERTs of
    the added ones. *)
Definition flush (s : t) : t :=
  let m := mem s in
  let locs :=
    Db.mac_locations m ++
    number_locations (next_id (map MacLocation.id (Db.mac_locations m)))
                     (pending_locations s) in
  let hist :=
    Db.mac_history m ++
    number_history (next_id (map MacHistory.id (Db.mac_history m)))
                   (pending_history s) in
  let d := Db.set_mac_history hist (Db.set_mac_locations locs m) in
  mk (durable s) d d [] [] (log s).

(** [db.commit()] *)
Definition commit (s : t) : t :=
  let s := flush s in
  mk (store s) (store s) (mem s) [] [] (log s ++ [store s]).

(** [db.add(x); db.flush()] for a row of a table whose objects are
    flushed as soon as they are added. *)
Definition insert (ins : Db.t -> Db.t) (s : t) : t :=
  let s := flush s in
  mk (durable s) (ins (store s)) (ins (mem s)) [] [] (log s).

(** [db.add(x)] for a location or a history event. *)
Definition add_location (l : MacLocation.t) (s : t) : t :=
  mk (durable s) (store s) (mem s) (pending_locations s ++ [l]) (pending_history s) (log s).

Definition add_history (h : MacHistory.t) (s : t) : t :=
  mk (durable s) (store s) (mem s) (pending_locations s) (pending_history s ++ [h]) (log s).

(** An assignment to attributes of a persistent object. *)
Definition set_mem (m : Db.t) (s : t) : t :=
  mk (durable s) (store s) m (pending_locations s) (pending_history s) (log s).

Definition update_port (pid : Z) (f : Port.t -> Port.t) (s : t) : t :=
  set_mem
    (Db.set_ports
       (map (fun p => if Z.eqb (Port.id p) pid then f p else p) (Db.ports (mem s)))
       (mem s)) s.

Definition update_mac (mid : Z) (f : MacAddress.t -> MacAddress.t) (s : t) : t :=
  set_mem
    (Db.set_mac_addresses
       (map (fun m => if Z.eqb (MacAddress.id m) mid then f m else m)
            (Db.mac_addresses (mem s)))
       (mem s)) s.

Definition update_location (lid : Z) (f : MacLocation.t -> MacLocation.t) (s : t) : t :=
  set_mem
    (Db.set_mac_locations
       (map (fun l => if Z.eqb (MacLocation.id l) lid then f l else l)
            (Db.mac_locations (mem s)))
       (mem s)) s.

(** The object the session holds for a primary key. *)
Definition port_obj (s : t) (pid : Z) : option Port.t :=
  find (fun p => Z.eqb (Port.id p) pid) (Db.ports (mem s)).

Definition mac_obj (s : t) (mid : Z) : option MacAddress.t :=
  find (fun m => Z.eqb (MacAddress.id m) mid) (Db.mac_addresses (mem s)).

Definition location_obj (s : t) (lid : Z) : option MacLocation.t :=
  find (fun l => Z.eqb (MacLocation.id l) lid) (Db.mac_locations (mem s)).

(** [db.query(Port).filter(Port.switch_id == sw, Port.port_name == name).first()] *)
Definition query_port_by_name (s : t) (sw : Z) (name : string) : option Port.t :=
  match find (fun p => Z.eqb (Port.switch_id p) sw && String.eqb (Port.port_name p) name)
             (Db.ports (store s)) with
  | Some p => port_obj s (Port.id p)
  | None => None
  end.

(** [db.query(Port).filter(Port.id == pid).first()] *)
Definition query_port (s : t) (pid : Z) : option Port.t :=
  match find (fun p => Z.eqb (Port.id p) pid) (Db.ports (store s)) with
  | Some p => port_obj s (Port.id p)
  | None => None
  end.

(** [db.query(Switch).filter(Switch.id == sid).first()] *)
Definition query_switch (s : t) (sid : Z) : option Switch.t :=
  find (fun x => Z.eqb (Switch.id x) sid) (Db.switches (store s)).

(** [db.query(MacAddress).filter(MacAddress.mac_address == a).first()] *)
Definition query_mac_by_address (s : t) (a : string) : option MacAddress.t :=
  match find (fun m => String.eqb (MacAddress.mac_address m) a)
             (Db.mac_addresses (store s)) with
  | Some m => mac_obj s (MacAddress.id m)
  | None => None
  end.

(** [db.query(MacAddress).filter(MacAddress.id == mid).first()] *)
Definition query_mac (s : t) (mid : Z) : option MacAddress.t :=
  match find (fun m => Z.eqb (MacAddress.id m) mid) (Db.mac_addresses (store s)) with
  | Some m => mac_obj s (MacAddress.id m)
  | None => None
  end.

(** [db.query(MacLocation).filter(MacLocation.mac_id == mid,
    MacLocation.is_current == True).first()] *)
Definition query_current_location (s : t) (mid : Z) : option MacLocation.t :=
  match find (fun l => Z.eqb (MacLocation.mac_id l) mid && MacLocation.is_current l)
             (Db.mac_locations (store s)) with
  | Some l => location_obj s (MacLocation.id l)
  | None => None
  end.

End Session.

(** ** app/services/alerts/alert_service.py

    Each [create_*_alert] adds the alert and flushes the session. *)

Module AlertService.

Definition create_alert (now : Z) (ty : string) (mac_id : option Z)
                        (switch_id port_id : Z) (s : Session.t) : Session.t :=
  Session.insert
    (fun d =>
       Db.set_alerts
         (Db.alerts d ++
          [Alert.mk (Session.next_id (map Alert.id (Db.alerts d))) ty mac_id
                    (Some switch_id) (Some port_id) now]) d)
    s.

Definition create_new_mac_alert now (mac_id switch_id port_id : Z) :=
  create_alert now "new_mac" (Some mac_id) switch_id port_id.

Definition create_mac_move_alert now (mac_id switch_id port_id : Z) :=
  create_alert now "mac_move" (Some mac_id) switch_id port_id.

Definition create_multiple_mac_alert now (switch_id port_id : Z) :=
  create_alert now "multiple_mac" None switch_id port_id.

End AlertService.

(** ** app/services/discovery/snmp_discovery.py: the location classifier

    Every [datetime.utcnow()] of one pass is the one value [now]. *)

Module SnmpDiscovery.
Import Py Session.
Local Open Scope string_scope.

(** One row of the forwarding-table snapshot, [mac_entries[i]]. *)
Record entry := mk_entry {
  e_mac_address : string;
  e_port_name : string;
  e_port_index : option Z;   (* absent key: [entry.get("port_index", 0)] *)
  e_vlan_id : option Z       (* absent key: [entry.get("vlan_id", 1)] *)
}.

Definition uplink_keywords : list string :=
  ["trunk"; "eth-trunk"; "port-channel"; "po"; "lag"; "bond"].

Definition is_uplink_by_name (port_name : string) : bool :=
  existsb (contains (lower port_name)) uplink_keywords.

Definition ENDPOINT_OUIS_literal : list string :=
  ["00186E"; "00012E"; "5C0E8B"; "B4C799"; "00E60E"; "000B86"; "24DE9A";
   "6CFDB9"; "9C1C12"; "ACA31E"; "D8C7C8"; "20A6CD"; "94B40F"; "0018BA";
   "0024A5"; "88155F"; "0C8BFD"; "00275D"; "0418D6"; "24A43C"; "44D9E7";
   "68D79A"; "788A20"; "802AA8"; "B4FBE4"; "DC9FDB"; "E063DA"; "F09FC2";
   "FCECDA"; "000000"; "C4108A"; "58B633"; "4C1D96"; "842B2B"; "EC589F";
   "74911A"; "58C17A"; "0004561"; "00070E"; "000FEE"; "001121"; "001A2F";
   "001BD4"; "00226B"; "002490"; "002566"; "0026CB"; "10BDEC"; "1CE6C7";
   "442B03"; "503DE5"; "5CF9DD"; "6400F1"; "6C416A"; "7C1E52"; "A8A666";
   "C4649B"; "DCF898"; "F8B7E2"; "0004F2"; "64167F"; "001565"; "24CF11";
   "309E65"; "805E0C"; "805EC0"; "000B82"; "00040D"; "001B4F"; "3CE5A6";
   "70521C"; "7C57BC"; "000413"; "08000F"].

(** [ENDPOINT_OUIS = [oui for oui in ENDPOINT_OUIS if oui != '000000']] *)
Definition ENDPOINT_OUIS : list string :=
  filter (fun oui => negb (String.eqb oui "000000")) ENDPOINT_OUIS_literal.

(** [mac_address.replace(':', '').upper()[:6] in ENDPOINT_OUIS] *)
Definition is_oui_endpoint (mac_address : string) : bool :=
  str_in (take 6 (upper (remove_char ":" mac_address))) ENDPOINT_OUIS.

Definition opt_str_eqb (o : option string) (x : string) : bool :=
  match o with
  | Some y => String.eqb y x
  | None => false
  end.

Definition opt_str_in (o : option string) (xs : list string) : bool :=
  match o with
  | Some y => str_in y xs
  | None => false
  end.

(** The role update of a port that exists already. *)
Definition reclassify (by_name : bool) (port : Port.t) : Port.t :=
  if truthy (Port.lldp_neighbor_type port) then
    if opt_str_in (Port.lldp_neighbor_type port) ["switch"; "router"; "unknown"] then
      if negb (Port.is_uplink port) then Port.set_role true "uplink" port else port
    else if opt_str_eqb (Port.lldp_neighbor_type port) "ap" then
      Port.set_role false "ap_port" port
    else if opt_str_eqb (Port.lldp_neighbor_type port) "phone" then
      Port.set_role false "phone_port" port
    else port
  else if by_name && negb (Port.is_uplink port) then Port.set_role true "trunk" port
  else port.

(** [new_port_is_uplink]: the port's flag, overridden by the neighbor
    type.  The two branches of the source compute it with the same
    outcome. *)
Definition new_port_is_uplink (port : Port.t) : bool :=
  if opt_str_eqb (Port.lldp_neighbor_type port) "ap" then false
  else if opt_str_eqb (Port.lldp_neighbor_type port) "phone" then false
  else if opt_str_in (Port.lldp_neighbor_type port) ["switch"; "router"] then true
  else Port.is_uplink port.

(** "Get or create port": the session after it and the id of [port]. *)
Definition get_or_create_port (sw : Switch.t) (port_name : string)
                              (port_index vlan_id : Z) (s : Session.t)
  : Session.t * Z :=
  let by_name := is_uplink_by_name port_name in
  match query_port_by_name s (Switch.id sw) port_name with
  | None =>
      let pid := next_id (map Port.id (Db.ports (mem s))) in
      (insert
         (fun d =>
            Db.set_ports
              (Db.ports d ++
               [Port.mk (next_id (map Port.id (Db.ports d))) (Switch.id sw) port_name
                        (Some port_index) (if by_name then "trunk" else "access")
                        (Some vlan_id) by_name 0 None None]) d)
         s,
       pid)
  | Some port => (update_port (Port.id port) (reclassify by_name) s, Port.id port)
  end.

(** "Get or create MAC address": the session, the id of [mac] and
    [is_new_mac]. *)
Definition get_or_create_mac (now : Z) (mac_address : string) (s : Session.t)
  : Session.t * Z * bool :=
  match query_mac_by_address s mac_address with
  | None =>
      let mid := next_id (map MacAddress.id (Db.mac_addresses (mem s))) in
      (insert
         (fun d =>
            Db.set_mac_addresses
              (Db.mac_addresses d ++
               [MacAddress.mk (next_id (map MacAddress.id (Db.mac_addresses d)))
                              mac_address
                              (Some (remove_char ":" (take 8 mac_address)))
                              now now true]) d)
         s,
       mid, true)
  | Some mac => (update_mac (MacAddress.id mac) (MacAddress.touch now) s,
                 MacAddress.id mac, false)
  end.

(** How the body of the [for entry in mac_entries] loop is left.  The
    flag tells whether the local variable [ENDPOINT_OUIS] is bound. *)
Inductive row_result :=
| Processed (s : Session.t) (ouis_bound : bool)   (* reaches [processed += 1] *)
| Skipped (s : Session.t) (ouis_bound : bool)     (* [continue] *)
| Raised (s : Session.t).                         (* UnboundLocalError *)

Definition port_is_uplink_or (s : Session.t) (pid : Z) (by_name : bool) : bool :=
  match port_obj s pid with
  | Some port => new_port_is_uplink port
  | None => by_name
  end.

Definition process_entry (now : Z) (sw : Switch.t) (e : entry)
                         (s : Session.t) (ouis_bound : bool) : row_result :=
  let mac_address := e_mac_address e in
  let port_name := PortUtils.normalize_port_name (e_port_name e) in
  let port_index := match e_port_index e with Some i => i | None => 0%Z end in
  let vlan_id := match e_vlan_id e with Some v => v | None => 1%Z end in
  let by_name := is_uplink_by_name port_name in
  let '(s, port_id) := get_or_create_port sw port_name port_index vlan_id s in
  let '(s, mac_id, is_new_mac) := get_or_create_mac now mac_address s in
  match query_current_location s mac_id with
  | Some location =>
      if negb (Z.eqb (MacLocation.switch_id location) (Switch.id sw))
         || negb (Z.eqb (MacLocation.port_id location) port_id)
      then
        let current_is_uplink :=
          match query_port s (MacLocation.port_id location) with
          | Some current_port => Port.is_uplink current_port
          | None => false
          end in
        (* ENDPOINT_OUIS = [...]: bound from here on *)
        let oui := is_oui_endpoint mac_address in
        let new_is_uplink := port_is_uplink_or s port_id by_name in
        if new_is_uplink && negb current_is_uplink then
          Processed
            (update_location (MacLocation.id location) (MacLocation.set_seen_at now) s)
            true
        else if new_is_uplink && current_is_uplink && oui then
          Processed
            (update_location (MacLocation.id location) (MacLocation.set_seen_at now) s)
            true
        else
          let s :=
            add_history
              (MacHistory.mk 0 mac_id (Switch.id sw) port_id (Some vlan_id) "move" now
                             (Some (MacLocation.switch_id location))
                             (Some (MacLocation.port_id location))) s in
          let s :=
            if negb (negb new_is_uplink && current_is_uplink) then
              match query_switch s (MacLocation.switch_id location),
                    query_port s (MacLocation.port_id location) with
              | Some _, Some _ =>
                  AlertService.create_mac_move_alert now mac_id (Switch.id sw) port_id s
              | _, _ => s
              end
            else s in
          let s :=
            update_location (MacLocation.id location) (MacLocation.set_is_current false) s in
          let s :=
            add_location
              (MacLocation.mk 0 mac_id (Switch.id sw) port_id (Some vlan_id) now true) s in
          Processed s true
      else
        Processed
          (update_location (MacLocation.id location) (MacLocation.set_seen_at now) s)
          ouis_bound
  | None =>
      (* [is_oui_endpoint = mac_oui in ENDPOINT_OUIS] reads the local
         variable, which only the branch above assigns *)
      if negb ouis_bound then Raised s
      else
        let oui := is_oui_endpoint mac_address in
        let new_is_uplink := port_is_uplink_or s port_id by_name in
        if new_is_uplink && (negb oui || negb is_new_mac) then Skipped s ouis_bound
        else
          let s :=
            add_location
              (MacLocation.mk 0 mac_id (Switch.id sw) port_id (Some vlan_id) now true) s in
          let s :=
            if is_new_mac then
              AlertService.create_new_mac_alert now mac_id (Switch.id sw) port_id
                (add_history
                   (MacHistory.mk 0 mac_id (Switch.id sw) port_id (Some vlan_id) "new" now
                                  None None) s)
            else s in
          Processed s ouis_bound
  end.

(** [discovered_macs = set(entry["mac_address"].upper() for ...)] *)
Definition discovered_macs (mac_entries : list entry) : list string :=
  map (fun e => upper (e_mac_address e)) mac_entries.

(** The body of [for location in current_locations]. *)
Definition stale_step (now : Z) (sw : Switch.t) (discovered : list string)
                      (acc : Session.t * nat) (location : MacLocation.t)
  : Session.t * nat :=
  let '(s, stale_count) := acc in
  match query_mac s (MacLocation.mac_id location) with
  | Some mac =>
      if negb (str_in (upper (MacAddress.mac_address mac)) discovered) then
        let s :=
          update_location (MacLocation.id location) (MacLocation.set_is_current false) s in
        let s :=
          add_history
            (MacHistory.mk 0 (MacAddress.id mac) (Switch.id sw)
                           (MacLocation.port_id location) (MacLocation.vlan_id location)
                           "disappeared" now None None) s in
        (s, S stale_count)
      else acc
  | None => acc
  end.

(** The stale-MAC cleanup that opens the pass. *)
Definition stale_cleanup (now : Z) (sw : Switch.t) (mac_entries : list entry)
                         (s : Session.t) : Session.t :=
  let current_locations :=
    filter (fun l => Z.eqb (MacLocation.switch_id l) (Switch.id sw)
                     && MacLocation.is_current l)
           (Db.mac_locations (store s)) in
  let '(s, stale_count) :=
    fold_left (stale_step now sw (discovered_macs mac_entries)) current_locations (s, O) in
  if Nat.ltb 0 stale_count then commit s else s.

Definition batch_size : nat := 100.

(** How the [for entry in mac_entries] loop ends. *)
Inductive loop_result :=
| Finished (s : Session.t) (processed : nat)
| Aborted (s : Session.t).

Fixpoint entries_loop (now : Z) (sw : Switch.t) (mac_entries : list entry)
                      (s : Session.t) (ouis_bound : bool) (processed : nat)
  : loop_result :=
  match mac_entries with
  | [] => Finished s processed
  | e :: rest =>
      match process_entry now sw e s ouis_bound with
      | Raised s' => Aborted s'
      | Skipped s' b => entries_loop now sw rest s' b processed
      | Processed s' b =>
          let processed := S processed in
          let s' := if Nat.eqb (Nat.modulo processed batch_size) 0 then commit s' else s' in
          entries_loop now sw rest s' b processed
      end
  end.

(** The (port id, count of current locations) rows of the device. *)
Definition port_mac_counts (sw : Switch.t) (s : Session.t) : list (Z * nat) :=
  map (fun p =>
         (Port.id p,
          List.length
            (filter (fun l => Z.eqb (MacLocation.port_id l) (Port.id p)
                              && MacLocation.is_current l)
                    (Db.mac_locations (store s)))))
      (filter (fun p => Z.eqb (Port.switch_id p) (Switch.id sw)) (Db.ports (store s))).

Definition count_step (now : Z) (sw : Switch.t) (s : Session.t) (row : Z * nat)
  : Session.t :=
  let '(port_id, mac_count) := row in
  match query_port s port_id with
  | Some port =>
      let s := update_port port_id (Port.set_last_mac_count (Z.of_nat mac_count)) s in
      if Nat.ltb 1 mac_count && negb (Port.is_uplink port)
      then AlertService.create_multiple_mac_alert now (Switch.id sw) port_id s
      else s
  | None => s
  end.

(** How a pass ends: it returns [processed], or the exception leaves
    the function with the session as it is. *)
Inductive pass_result :=
| Returns (s : Session.t) (processed : nat)
| Raises (s : Session.t).

Definition _process_mac_entries (now : Z) (sw : Switch.t) (mac_entries : list entry)
                                (s : Session.t) : pass_result :=
  let s := stale_cleanup now sw mac_entries s in
  match entries_loop now sw mac_entries s false O with
  | Aborted s => Raises s
  | Finished s processed =>
      let s := fold_left (count_step now sw) (port_mac_counts sw s) s in
      Returns (commit s) processed
  end.

End SnmpDiscovery.

(** ** The vocabulary of the statements of Part II *)

(** Renaming the port ids a row refers to. *)
Module Rename.

Definition location (F : Z -> Z) (l : MacLocation.t) : MacLocation.t :=
  MacLocation.set_port_id (F (MacLocation.port_id l)) l.

Definition history (F : Z -> Z) (h : MacHistory.t) : MacHistory.t :=
  MacHistory.set_previous_port_id
    (option_map F (MacHistory.previous_port_id h))
    (MacHistory.set_port_id (F (MacHistory.port_id h)) h).

Definition link (F : Z -> Z) (l : TopologyLink.t) : TopologyLink.t :=
  TopologyLink.set_remote_port_id
    (option_map F (TopologyLink.remote_port_id l))
    (TopologyLink.set_local_port_id (F (TopologyLink.local_port_id l)) l).

End Rename.

(** [x in xs] for integers *)
Definition mem (x : Z) (xs : list Z) : bool := existsb (Z.eqb x) xs.

(** The primary key of the ports table. *)
Definition port_ids (d : Db.t) : list Z := map Port.id (Db.ports d).

(** The ids of the Port rows of one (switch_id, port_index) pair. *)
Definition group_ids (d : Db.t) (k : Z * Z) : list Z :=
  map Port.id (LldpDiscovery.ports_of_key d k).

(** Walks in the adjacency structure. *)
Module Paths.

(** [y] is among the keys of the row of [x]. *)
Definition edge (adj : NetworkGraph.adjacency_t) (x y : Z) : Prop :=
  In y (NetworkGraph.neighbors adj x).

(** [Walk adj a b p]: [p] lists the switches of a walk from [a] to [b],
    each next one a neighbor of the one before. *)
Inductive Walk (adj : NetworkGraph.adjacency_t) (a : Z) : Z -> list Z -> Prop :=
| Walk_start : Walk adj a a [a]
| Walk_snoc m b p : Walk adj a m p -> edge adj m b -> Walk adj a b (p ++ [b]).

(** [b] can be reached from [a]. *)
Definition connected (adj : NetworkGraph.adjacency_t) (a b : Z) : Prop :=
  exists p, Walk adj a b p.

End Paths.

(** ** Sample stores used by the examples of Part II *)

Module Samples.
Local Open Scope string_scope.
Local Open Scope Z_scope.

(** Switch 1 has two Port rows for interface index 4: row 10 was made by
    the neighbor walk (wrong slot in the name, neighbor data), row 11 by
    the table walk (one location). *)
Definition merge_example : Db.t :=
  Db.mk
    [Switch.mk 1 "01_L2_Rack1_10" "10.1.0.10"; Switch.mk 2 "01_L3_Core_251" "10.1.0.251"]
    [Port.mk 10 1 "GE0/0/4" (Some 4) "uplink" None true 0 (Some "01_L3_Core_251") (Some "switch");
     Port.mk 11 1 "GE1/0/4" (Some 4) "access" (Some 1) false 1 None None;
     Port.mk 12 1 "GE1/0/5" (Some 5) "access" (Some 1) false 0 None None]
    [MacAddress.mk 1 "AA:BB:CC:00:00:01" (Some "AABBCC") 100 100 true]
    [MacLocation.mk 1 1 1 11 (Some 1) 100 true]
    [MacHistory.mk 1 1 1 11 (Some 1) "move" 100 (Some 1) (Some 10)]
    [TopologyLink.mk 1 1 10 2 None "lldp"]
    [].

(** Five switches: 1, 2 and 3 form a ring, 4 hangs off 3, 5 has no link. *)
Definition ring_example : Db.t :=
  Db.mk
    [Switch.mk 1 "01_L3_Core_251" "10.1.0.251"; Switch.mk 2 "01_L2_Rack1_10" "10.1.0.10";
     Switch.mk 3 "01_L2_Rack2_11" "10.1.0.11"; Switch.mk 4 "01_L2_Rack3_12" "10.1.0.12";
     Switch.mk 5 "02_L2_Rack1_10" "10.2.0.10"]
    [] [] [] []
    [TopologyLink.mk 1 1 101 2 (Some 201) "lldp";
     TopologyLink.mk 2 2 202 3 (Some 301) "lldp";
     TopologyLink.mk 3 3 302 1 None "lldp";
     TopologyLink.mk 4 3 303 4 (Some 401) "lldp"]
    [].

(** Seven switches in a tree: 1 over 2 and 3, 2 over 4 and 5, 3 over 6
    and 7. *)
Definition tree_example : Db.t :=
  Db.mk
    [Switch.mk 1 "01_L3_Core_251" "10.1.0.251"; Switch.mk 2 "01_L2_Dist1_2" "10.1.0.2";
     Switch.mk 3 "01_L2_Dist2_3" "10.1.0.3"; Switch.mk 4 "01_L2_Rack1_4" "10.1.0.4";
     Switch.mk 5 "01_L2_Rack2_5" "10.1.0.5"; Switch.mk 6 "01_L2_Rack3_6" "10.1.0.6";
     Switch.mk 7 "01_L2_Rack4_7" "10.1.0.7"]
    [] [] [] []
    [TopologyLink.mk 1 1 101 2 (Some 201) "lldp";
     TopologyLink.mk 2 1 102 3 (Some 301) "lldp";
     TopologyLink.mk 3 2 202 4 (Some 401) "lldp";
     TopologyLink.mk 4 2 203 5 (Some 501) "lldp";
     TopologyLink.mk 5 3 302 6 (Some 601) "lldp";
     TopologyLink.mk 6 3 303 7 (Some 701) "lldp"]
    [].

End Samples.

(* ================================================================== *)
(** * Part II.  Properties                                              *)
(* ================================================================== *)

(** ** Port-name normalisation *)

Section PortNameFacts.
Import Py PortUtils.
Local Open Scope string_scope.

Example normalize_GigabitEthernet :
  normalize_port_name "GigabitEthernet0/0/28" = "GE0/0/28".
Proof. reflexivity. Qed.

Example normalize_XGi :
  normalize_port_name " XGi3/0/18 " = "XGE3/0/18".
Proof. reflexivity. Qed.

Example normalize_10GE :
  normalize_port_name "10GE1/0/1" = "XGE1/0/1".
Proof. reflexivity. Qed.

Example normalize_40GE :
  normalize_port_name "40GE1/0/1" = "40GE1/0/1".
Proof. reflexivity. Qed.

Example normalize_Eth_Trunk :
  normalize_port_name "Eth-Trunk 1" = "Eth-Trunk1".
Proof. reflexivity. Qed.

Example normalize_blank :
  normalize_port_name "   " = "".
Proof. reflexivity. Qed.

Lemma lstrip_idem s : lstrip (lstrip s) = lstrip s.
Proof.
  induction s as [|c s IH]; simpl; [reflexivity|].
  destruct (is_space c) eqn:E; [exact IH|].
  simpl. now rewrite E.
Qed.

Lemma rstrip_idem s : rstrip (rstrip s) = rstrip s.
Proof.
  induction s as [|c s IH]; simpl; [reflexivity|].
  destruct (is_space c && is_empty (rstrip s)) eqn:E; [reflexivity|].
  simpl. rewrite IH, E. reflexivity.
Qed.

(** A suffix of a string without trailing blanks has none either. *)
Lemma rstrip_fixed_tail c s : rstrip (String c s) = String c s -> rstrip s = s.
Proof.
  simpl. destruct (is_space c && is_empty (rstrip s)); [discriminate|].
  now intros [= ->].
Qed.

Lemma rstrip_fixed_drop n : forall s, rstrip s = s -> rstrip (drop n s) = drop n s.
Proof.
  induction n as [|n IH]; intros s H; simpl; [exact H|].
  destruct s as [|c s]; [reflexivity|].
  apply IH. eapply rstrip_fixed_tail; eassumption.
Qed.

Lemma rstrip_fixed_lstrip s : rstrip s = s -> rstrip (lstrip s) = lstrip s.
Proof.
  induction s as [|c s IH]; intros H; simpl; [reflexivity|].
  destruct (is_space c); [|exact H].
  apply IH. eapply rstrip_fixed_tail; eassumption.
Qed.

(** Putting a character that is not blank in front keeps the string free
    of trailing blanks. *)
Lemma rstrip_fixed_cons c s :
  is_space c = false -> rstrip s = s -> rstrip (String c s) = String c s.
Proof. intros Hc Hs. simpl. now rewrite Hc, Hs. Qed.

(** [stripped s]: [s] has no blank at either end. *)
Definition stripped (s : string) : Prop := lstrip s = s /\ rstrip s = s.

Lemma strip_stripped s : stripped (strip s).
Proof.
  unfold stripped, strip; split.
  - apply lstrip_idem.
  - apply rstrip_fixed_lstrip, rstrip_idem.
Qed.

Lemma stripped_strip s : stripped s -> strip s = s.
Proof. intros [Hl Hr]. unfold strip. now rewrite Hr. Qed.

Lemma rstrip_fixed_app lit d :
  rstrip lit = lit -> rstrip d = d -> rstrip (lit ++ d) = lit ++ d.
Proof.
  induction lit as [|c l IH]; intros Hl Hd; [exact Hd|].
  pose proof (rstrip_fixed_tail _ _ Hl) as Hl'.
  simpl in Hl |- *. rewrite (IH Hl' Hd).
  rewrite Hl' in Hl.
  destruct (is_space c); [|reflexivity].
  destruct l; [discriminate|reflexivity].
Qed.

(** The shape of what a rewriting step returns when it fires: a literal
    that starts and ends with a letter, then a suffix of the input. *)
Lemma stripped_literal_app lit d :
  lstrip (lit ++ d) = lit ++ d -> rstrip lit = lit -> rstrip d = d ->
  stripped (lit ++ d).
Proof. intros H1 H2 H3. split; [exact H1|now apply rstrip_fixed_app]. Qed.

Lemma rewrite_prefix_stripped n : stripped n -> stripped (rewrite_prefix n).
Proof.
  intros [Hl Hr].
  assert (Hd : forall k, rstrip (drop k n) = drop k n)
    by (intro k; now apply rstrip_fixed_drop).
  unfold rewrite_prefix, sub_prefix, sub_prefix_before_digit, sub_prefix_spaces.
  destruct (startswith n "XGigabitEthernet") eqn:E1.
  { apply stripped_literal_app; [reflexivity|reflexivity|apply Hd]. }
  destruct (startswith n "XGi" && head_is is_digit (drop (String.length "XGi") n)) eqn:E2.
  { apply stripped_literal_app; [reflexivity|reflexivity|apply Hd]. }
  destruct (startswith n "10GE") eqn:E3.
  { apply stripped_literal_app; [reflexivity|reflexivity|apply Hd]. }
  destruct (startswith n "GigabitEthernet") eqn:E4.
  { apply stripped_literal_app; [reflexivity|reflexivity|apply Hd]. }
  destruct (startswith n "Gi" && head_is is_digit (drop (String.length "Gi") n)) eqn:E5.
  { apply stripped_literal_app; [reflexivity|reflexivity|apply Hd]. }
  destruct (startswith n "Eth-Trunk") eqn:E6.
  { apply stripped_literal_app;
      [reflexivity|reflexivity|apply rstrip_fixed_lstrip, Hd]. }
  now split.
Qed.

Lemma rewrite_prefix_idem n : rewrite_prefix (rewrite_prefix n) = rewrite_prefix n.
Proof.
  remember (rewrite_prefix n) as m eqn:Hm.
  unfold rewrite_prefix, sub_prefix, sub_prefix_before_digit, sub_prefix_spaces in Hm.
  destruct (startswith n "XGigabitEthernet") eqn:E1; [now subst m|].
  destruct (startswith n "XGi" && head_is is_digit (drop (String.length "XGi") n)) eqn:E2;
    [now subst m|].
  destruct (startswith n "10GE") eqn:E3; [now subst m|].
  destruct (startswith n "GigabitEthernet") eqn:E4; [now subst m|].
  destruct (startswith n "Gi" && head_is is_digit (drop (String.length "Gi") n)) eqn:E5;
    [now subst m|].
  destruct (startswith n "Eth-Trunk") eqn:E6; subst m.
  - generalize (drop (String.length "Eth-Trunk") n); intro d.
    unfold rewrite_prefix, sub_prefix, sub_prefix_before_digit, sub_prefix_spaces.
    simpl. now rewrite lstrip_idem.
  - unfold rewrite_prefix, sub_prefix, sub_prefix_before_digit, sub_prefix_spaces.
    now rewrite E1, E2, E3, E4, E5, E6.
Qed.

(** C10.  Port-name normalisation is idempotent: normalising a name that
    is already normalised leaves it unchanged, for every string. *)
Theorem normalize_port_name_idempotent (s : string) :
  normalize_port_name (normalize_port_name s) = normalize_port_name s.
Proof.
  unfold normalize_port_name.
  destruct (is_empty s) eqn:Es.
  - now rewrite Es.
  - destruct (is_empty (rewrite_prefix (strip s))) eqn:Em; [reflexivity|].
    rewrite stripped_strip by apply rewrite_prefix_stripped, strip_stripped.
    apply rewrite_prefix_idem.
Qed.

End PortNameFacts.

(** ** The port-merge pass *)

Section PortMergeFacts.
Import LldpDiscovery.
Local Open Scope string_scope.

Lemma mem_In x xs : mem x xs = true <-> In x xs.
Proof.
  unfold mem. rewrite existsb_exists. split.
  - intros [y [Hy E]]. apply Z.eqb_eq in E. now subst.
  - intros H. exists x. split; [exact H|apply Z.eqb_refl].
Qed.

Lemma mem_false x xs : mem x xs = false <-> ~ In x xs.
Proof.
  rewrite <- mem_In. destruct (mem x xs); split; congruence.
Qed.

(** [rp from to]: what one bulk UPDATE does to a port id. *)
Definition rp (from to x : Z) : Z := if Z.eqb x from then to else x.

Lemma repoint_location_rename from to l :
  repoint_location from to l = Rename.location (rp from to) l.
Proof.
  unfold repoint_location, Rename.location, rp.
  destruct l as [i m s p v t c]; simpl.
  destruct (Z.eqb p from); reflexivity.
Qed.

Lemma repoint_history_rename from to h :
  repoint_history from to h = Rename.history (rp from to) h.
Proof.
  unfold repoint_history, Rename.history, rp, opt_Z_eqb.
  destruct h as [i m s p v e t ps pp]; simpl.
  destruct (Z.eqb p from); simpl; destruct pp as [x|]; simpl;
    try destruct (Z.eqb x from); reflexivity.
Qed.

Lemma repoint_link_rename from to l :
  repoint_link from to l = Rename.link (rp from to) l.
Proof.
  unfold repoint_link, Rename.link, rp, opt_Z_eqb.
  destruct l as [i ls lp rs rpid pr]; simpl.
  destruct (Z.eqb lp from); simpl; destruct rpid as [x|]; simpl;
    try destruct (Z.eqb x from); reflexivity.
Qed.

Lemma rename_location_compose F G l :
  Rename.location F (Rename.location G l) = Rename.location (fun x => F (G x)) l.
Proof. now destruct l. Qed.

Lemma rename_history_compose F G h :
  Rename.history F (Rename.history G h) = Rename.history (fun x => F (G x)) h.
Proof. destruct h as [i m s p v e t ps [x|]]; reflexivity. Qed.

Lemma rename_link_compose F G l :
  Rename.link F (Rename.link G l) = Rename.link (fun x => F (G x)) l.
Proof. destruct l as [i ls lp rs [x|] pr]; reflexivity. Qed.

Lemma rename_location_ext F G l :
  (forall x, F x = G x) -> Rename.location F l = Rename.location G l.
Proof. intros H. unfold Rename.location. now rewrite H. Qed.

Lemma rename_history_ext F G h :
  (forall x, F x = G x) -> Rename.history F h = Rename.history G h.
Proof.
  intros H. unfold Rename.history. rewrite H.
  destruct (MacHistory.previous_port_id h); simpl; [rewrite H|]; reflexivity.
Qed.

Lemma rename_link_ext F G l :
  (forall x, F x = G x) -> Rename.link F l = Rename.link G l.
Proof.
  intros H. unfold Rename.link. rewrite H.
  destruct (TopologyLink.remote_port_id l); simpl; [rewrite H|]; reflexivity.
Qed.

Lemma rename_location_id l : Rename.location (fun x => x) l = l.
Proof. now destruct l. Qed.

Lemma rename_history_id h : Rename.history (fun x => x) h = h.
Proof. destruct h as [i m s p v e t ps [x|]]; reflexivity. Qed.

Lemma rename_link_id l : Rename.link (fun x => x) l = l.
Proof. destruct l as [i ls lp rs [x|] pr]; reflexivity. Qed.

(** [d'] is [d] with the ports [dels] deleted, the references renamed by
    [F], and nothing else touched. *)
Definition merged_from (d : Db.t) (dels : list Z) (F : Z -> Z) (d' : Db.t) : Prop :=
  Db.switches d' = Db.switches d /\
  Db.mac_addresses d' = Db.mac_addresses d /\
  Db.alerts d' = Db.alerts d /\
  Db.ports d' = filter (fun p => negb (mem (Port.id p) dels)) (Db.ports d) /\
  Db.mac_locations d' = map (Rename.location F) (Db.mac_locations d) /\
  Db.mac_history d' = map (Rename.history F) (Db.mac_history d) /\
  Db.topology_links d' = map (Rename.link F) (Db.topology_links d).

(** The ids the merge loop deletes: those of the group, the survivor's
    apart. *)
Definition dels_of (kid : Z) (ps : list Port.t) : list Z :=
  filter (fun x => negb (Z.eqb x kid)) (map Port.id ps).

(** Where the merge loop sends a port id. *)
Definition to_survivor (kid : Z) (dels : list Z) (x : Z) : Z :=
  if mem x dels then kid else x.

Lemma dels_of_not_kid kid ps : mem kid (dels_of kid ps) = false.
Proof.
  apply mem_false. unfold dels_of. rewrite filter_In.
  intros [_ H]. now rewrite Z.eqb_refl in H.
Qed.

Lemma filter_filter_and {A} (f g : A -> bool) l :
  filter f (filter g l) = filter (fun x => g x && f x) l.
Proof.
  induction l as [|a l IH]; simpl; [reflexivity|].
  destruct (g a); simpl; [destruct (f a)|]; now rewrite IH.
Qed.

Lemma to_survivor_step kid from dels x :
  mem kid dels = false ->
  to_survivor kid dels (rp from kid x) = to_survivor kid (from :: dels) x.
Proof.
  intros Hk. unfold to_survivor, rp. simpl.
  destruct (Z.eqb x from); simpl; [now rewrite Hk|reflexivity].
Qed.

Lemma merged_from_refl d : merged_from d [] (to_survivor 0 []) d.
Proof.
  unfold merged_from. repeat split.
  - induction (Db.ports d) as [|p l IH]; simpl; [reflexivity|now f_equal].
  - rewrite <- (map_id (Db.mac_locations d)) at 1.
    apply map_ext. intros l. symmetry. apply rename_location_id.
  - rewrite <- (map_id (Db.mac_history d)) at 1.
    apply map_ext. intros h. symmetry. apply rename_history_id.
  - rewrite <- (map_id (Db.topology_links d)) at 1.
    apply map_ext. intros l. symmetry. apply rename_link_id.
Qed.

Lemma merged_from_ext d dels F G d' :
  (forall x, F x = G x) -> merged_from d dels F d' -> merged_from d dels G d'.
Proof.
  intros E (H1 & H2 & H3 & H4 & H5 & H6 & H7).
  unfold merged_from. repeat split; try assumption.
  - rewrite H5. apply map_ext. intros. now apply rename_location_ext.
  - rewrite H6. apply map_ext. intros. now apply rename_history_ext.
  - rewrite H7. apply map_ext. intros. now apply rename_link_ext.
Qed.

Lemma merged_from_step d from kid dels d' :
  mem kid dels = false ->
  merged_from (merge_port from kid d) dels (to_survivor kid dels) d' ->
  merged_from d (from :: dels) (to_survivor kid (from :: dels)) d'.
Proof.
  intros Hk (H1 & H2 & H3 & H4 & H5 & H6 & H7).
  unfold merged_from. simpl in *. repeat split; try assumption.
  - rewrite H4, filter_filter_and. apply filter_ext. intros q.
    rewrite negb_orb. reflexivity.
  - rewrite H5, map_map. apply map_ext. intros l.
    rewrite repoint_location_rename, rename_location_compose.
    apply rename_location_ext. intros x. now apply to_survivor_step.
  - rewrite H6, map_map. apply map_ext. intros h.
    rewrite repoint_history_rename, rename_history_compose.
    apply rename_history_ext. intros x. now apply to_survivor_step.
  - rewrite H7, map_map. apply map_ext. intros l.
    rewrite repoint_link_rename, rename_link_compose.
    apply rename_link_ext. intros x. now apply to_survivor_step.
Qed.

(** What the merge loop does to the store: it deletes the rows of the
    group other than the survivor and sends their references to it.  The
    survivor keeps its id, switch, index and name. *)
Lemma merge_loop_spec ps : forall keep d m keep' d' m',
  merge_loop ps keep d m = (keep', d', m') ->
  Port.id keep' = Port.id keep /\
  Port.switch_id keep' = Port.switch_id keep /\
  Port.port_index keep' = Port.port_index keep /\
  Port.port_name keep' = Port.port_name keep /\
  merged_from d (dels_of (Port.id keep) ps)
              (to_survivor (Port.id keep) (dels_of (Port.id keep) ps)) d'.
Proof.
  induction ps as [|p ps IH]; intros keep d m keep' d' m' H; simpl in H.
  - injection H as <- <- <-. do 4 (split; [reflexivity|]).
    eapply merged_from_ext; [|apply merged_from_refl]. intros x; reflexivity.
  - destruct (Z.eqb (Port.id p) (Port.id keep)) eqn:E.
    + apply IH in H. unfold dels_of in *. simpl. now rewrite E.
    + match type of H with
      | merge_loop _ ?k _ _ = _ => set (keep1 := k) in *
      end.
      assert (Hk : Port.id keep1 = Port.id keep /\
                   Port.switch_id keep1 = Port.switch_id keep /\
                   Port.port_index keep1 = Port.port_index keep /\
                   Port.port_name keep1 = Port.port_name keep).
      { unfold keep1.
        destruct (truthy (Port.lldp_neighbor_name p)
                  && negb (truthy (Port.lldp_neighbor_name keep))); auto. }
      destruct Hk as (K1 & K2 & K3 & K4).
      apply IH in H. rewrite K1, K2, K3, K4 in H.
      destruct H as (H1 & H2 & H3 & H4 & H5).
      do 4 (split; [assumption|]).
      unfold dels_of at 1 2. simpl. rewrite E. simpl.
      apply merged_from_step; [apply dels_of_not_kid|exact H5].
Qed.

(** *** Choosing the survivor *)

(** [at_least d a b]: the selection loop ranks [a] no lower than [b]. *)
Definition at_least (d : Db.t) (a b : Port.t) : Prop :=
  (location_count d (Port.id b) < location_count d (Port.id a))%nat \/
  (location_count d (Port.id b) = location_count d (Port.id a) /\
   (truthy (Port.lldp_neighbor_name b) = true ->
    truthy (Port.lldp_neighbor_name a) = true)).

Lemma at_least_refl d a : at_least d a a.
Proof. right. auto. Qed.

Lemma at_least_trans d a b c : at_least d a b -> at_least d b c -> at_least d a c.
Proof.
  unfold at_least. intros [H1|[H1 H1']] [H2|[H2 H2']].
  - left; lia.
  - left; lia.
  - left; lia.
  - right. split; [lia|auto].
Qed.

Lemma prefer_cases d keep p :
  (prefer d keep p = keep \/ prefer d keep p = p) /\
  at_least d (prefer d keep p) keep /\ at_least d (prefer d keep p) p.
Proof.
  unfold prefer, at_least.
  destruct (Nat.ltb_spec (location_count d (Port.id keep)) (location_count d (Port.id p))) as [L|L].
  - split; [auto|]. split; [left; lia|right; auto].
  - destruct (Nat.eqb_spec (location_count d (Port.id p)) (location_count d (Port.id keep))) as [E|E];
      simpl.
    + destruct (truthy (Port.lldp_neighbor_name p)) eqn:Tp;
        destruct (truthy (Port.lldp_neighbor_name keep)) eqn:Tk; simpl;
        (split; [auto|]); split; right; (split; [lia|]); congruence.
    + split; [auto|]. split; [right; auto|left; lia].
Qed.

Lemma choose_keep_spec d rest : forall p0,
  In (choose_keep d p0 rest) (p0 :: rest) /\
  forall p, In p (p0 :: rest) -> at_least d (choose_keep d p0 rest) p.
Proof.
  unfold choose_keep.
  induction rest as [|q rest IH]; intros p0; simpl.
  - split; [auto|]. intros p [<-|[]]. apply at_least_refl.
  - destruct (IH (prefer d p0 q)) as [Hin Hmax].
    destruct (prefer_cases d p0 q) as ([E|E] & A1 & A2).
    + split.
      * destruct Hin as [H|H]; [left; congruence|right; right; exact H].
      * intros p [<-|[<-|H]].
        -- eapply at_least_trans; [apply Hmax; now left|exact A1].
        -- eapply at_least_trans; [apply Hmax; now left|exact A2].
        -- apply Hmax. now right.
    + split.
      * destruct Hin as [H|H]; [right; left; congruence|right; right; exact H].
      * intros p [<-|[<-|H]].
        -- eapply at_least_trans; [apply Hmax; now left|exact A1].
        -- eapply at_least_trans; [apply Hmax; now left|exact A2].
        -- apply Hmax. now right.
Qed.

(** The choice reads the store through the location counts of the
    group's rows only. *)
Lemma prefer_ext d1 d2 keep p :
  location_count d1 (Port.id keep) = location_count d2 (Port.id keep) ->
  location_count d1 (Port.id p) = location_count d2 (Port.id p) ->
  prefer d1 keep p = prefer d2 keep p.
Proof. intros H1 H2. unfold prefer. now rewrite H1, H2. Qed.

Lemma choose_keep_ext d1 d2 rest : forall p0,
  (forall p, In p (p0 :: rest) ->
             location_count d1 (Port.id p) = location_count d2 (Port.id p)) ->
  choose_keep d1 p0 rest = choose_keep d2 p0 rest.
Proof.
  unfold choose_keep.
  induction rest as [|q rest IH]; intros p0 H; simpl; [reflexivity|].
  rewrite (prefer_ext d1 d2 p0 q) by (apply H; simpl; auto).
  apply IH. intros p [<-|Hp].
  - destruct (prefer_cases d2 p0 q) as ([E|E] & _); rewrite E; apply H; simpl; auto.
  - apply H. simpl; auto.
Qed.

(** *** One group *)

Lemma NoDup_id_inj (l : list Port.t) a b :
  NoDup (map Port.id l) -> In a l -> In b l -> Port.id a = Port.id b -> a = b.
Proof.
  induction l as [|x l IH]; simpl; intros ND Ha Hb E; [contradiction|].
  inversion ND as [|? ? Hx ND']; subst.
  destruct Ha as [<-|Ha], Hb as [<-|Hb]; auto.
  - exfalso. apply Hx. rewrite E. now apply in_map.
  - exfalso. apply Hx. rewrite <- E. now apply in_map.
Qed.

Lemma in_group_key k k' p :
  in_group k p = true -> in_group k' p = true -> k = k'.
Proof.
  unfold in_group, opt_Z_eqb. destruct k as [a b], k' as [a' b']; simpl.
  destruct (Port.port_index p); rewrite !andb_true_iff, ?Z.eqb_eq;
    intros [H1 H2] [H3 H4]; [congruence|discriminate].
Qed.

(** The row written back in place of the survivor. *)
Definition upd (kid : Z) (keep' : Port.t) (p : Port.t) : Port.t :=
  if Z.eqb (Port.id p) kid then keep' else p.

Lemma upd_hit kid keep' p : Port.id p = kid -> upd kid keep' p = keep'.
Proof. intros E. unfold upd. now rewrite (proj2 (Z.eqb_eq _ _) E). Qed.

Lemma upd_miss kid keep' p : Port.id p <> kid -> upd kid keep' p = p.
Proof. intros E. unfold upd. now rewrite (proj2 (Z.eqb_neq _ _) E). Qed.

Lemma store_port_ports keep' d :
  Db.ports (store_port keep' d) = map (upd (Port.id keep') keep') (Db.ports d).
Proof. reflexivity. Qed.

Lemma map_id_upd kid keep' l :
  Port.id keep' = kid -> map Port.id (map (upd kid keep') l) = map Port.id l.
Proof.
  intros E. rewrite map_map. apply map_ext. intros p. unfold upd.
  destruct (Z.eqb_spec (Port.id p) kid); congruence.
Qed.

Lemma map_id_filter (f : Z -> bool) (l : list Port.t) :
  map Port.id (filter (fun p => f (Port.id p)) l) = filter f (map Port.id l).
Proof.
  induction l as [|p l IH]; simpl; [reflexivity|].
  destruct (f (Port.id p)); simpl; now rewrite IH.
Qed.

Lemma filter_id_absent (l : list Port.t) x :
  ~ In x (map Port.id l) -> filter (fun p => Z.eqb (Port.id p) x) l = [].
Proof.
  induction l as [|p l IH]; simpl; intros H; [reflexivity|].
  destruct (Z.eqb_spec (Port.id p) x) as [E|E]; [exfalso; auto|].
  apply IH. intros H'. apply H. now right.
Qed.

Lemma filter_id_unique (l : list Port.t) keep :
  NoDup (map Port.id l) -> In keep l ->
  filter (fun p => Z.eqb (Port.id p) (Port.id keep)) l = [keep].
Proof.
  induction l as [|p l IH]; simpl; intros ND Hin; [contradiction|].
  inversion ND as [|? ? Hp ND']; subst.
  destruct Hin as [->|Hin].
  - rewrite Z.eqb_refl. f_equal. now apply filter_id_absent.
  - destruct (Z.eqb_spec (Port.id p) (Port.id keep)) as [E|E]; [|now apply IH].
    exfalso. apply Hp. rewrite E. now apply in_map.
Qed.

Section OneGroup.
Variable d : Db.t.
Variable k : Z * Z.
Variable keep : Port.t.
Hypothesis ND : NoDup (port_ids d).
Hypothesis keep_in : In keep (ports_of_key d k).

Let kid := Port.id keep.
Let dels := dels_of kid (ports_of_key d k).

Lemma keep_in_ports : In keep (Db.ports d) /\ in_group k keep = true.
Proof. unfold ports_of_key in keep_in. now apply filter_In in keep_in. Qed.

Lemma id_kid_is_keep p : In p (Db.ports d) -> Port.id p = kid -> p = keep.
Proof.
  intros Hp E. eapply NoDup_id_inj; eauto. apply keep_in_ports.
Qed.

(** Exactly the group's rows other than the survivor are deleted. *)
Lemma deleted_iff p :
  In p (Db.ports d) ->
  mem (Port.id p) dels = negb (Z.eqb (Port.id p) kid) && in_group k p.
Proof.
  intros Hp.
  destruct (mem (Port.id p) dels) eqn:M.
  - apply mem_In in M. unfold dels, dels_of in M.
    apply filter_In in M. destruct M as [M1 M2]. rewrite M2. simpl.
    apply in_map_iff in M1. destruct M1 as (q & E & Hq).
    unfold ports_of_key in Hq. apply filter_In in Hq. destruct Hq as [Hq1 Hq2].
    assert (q = p) by (eapply NoDup_id_inj; eauto). now subst.
  - apply mem_false in M. symmetry. apply not_true_is_false. intros H.
    apply andb_true_iff in H. destruct H as [H1 H2].
    apply M. unfold dels, dels_of. apply filter_In. split; [|exact H1].
    apply in_map. unfold ports_of_key. apply filter_In. now split.
Qed.

Lemma group_member_renamed p :
  In p (ports_of_key d k) -> to_survivor kid dels (Port.id p) = kid.
Proof.
  intros Hp. unfold to_survivor.
  destruct (mem (Port.id p) dels) eqn:M; [reflexivity|].
  unfold ports_of_key in Hp. apply filter_In in Hp. destruct Hp as [Hp1 Hp2].
  rewrite (deleted_iff _ Hp1), Hp2, andb_true_r in M.
  apply negb_false_iff, Z.eqb_eq in M. exact M.
Qed.

Lemma outsider_not_renamed x :
  ~ In x (map Port.id (ports_of_key d k)) -> to_survivor kid dels x = x.
Proof.
  intros Hx. unfold to_survivor.
  destruct (mem x dels) eqn:M; [|reflexivity].
  exfalso. apply Hx. apply mem_In in M. unfold dels, dels_of in M.
  now apply filter_In in M.
Qed.

Lemma renamed_eq_outsider x y :
  ~ In x (map Port.id (ports_of_key d k)) ->
  Z.eqb (to_survivor kid dels y) x = Z.eqb y x.
Proof.
  intros Hx. unfold to_survivor.
  destruct (mem y dels) eqn:M; [|reflexivity].
  assert (Hy : In y (map Port.id (ports_of_key d k))).
  { apply mem_In in M. unfold dels, dels_of in M. now apply filter_In in M. }
  assert (Hk : In kid (map Port.id (ports_of_key d k))) by (now apply in_map).
  destruct (Z.eqb_spec kid x), (Z.eqb_spec y x); congruence.
Qed.

Variable keep' : Port.t.
Hypothesis keep'_id : Port.id keep' = kid.
Hypothesis keep'_group : in_group k keep' = true.

Lemma survivors_in_group (l : list Port.t) :
  incl l (Db.ports d) ->
  filter (in_group k) (map (upd kid keep') (filter (fun p => negb (mem (Port.id p) dels)) l))
  = map (fun _ => keep') (filter (fun p => Z.eqb (Port.id p) kid) l).
Proof.
  induction l as [|p l IH]; intros Hl; simpl; [reflexivity|].
  assert (Hp : In p (Db.ports d)) by (apply Hl; now left).
  assert (Hl' : incl l (Db.ports d)) by (intros x Hx; apply Hl; now right).
  rewrite (deleted_iff _ Hp).
  destruct (Z.eqb_spec (Port.id p) kid) as [E|E]; simpl.
  - rewrite !(upd_hit _ _ _ E), keep'_group.
    simpl. now rewrite IH.
  - destruct (in_group k p) eqn:G; simpl; [now apply IH|].
    rewrite !(upd_miss _ _ _ E), G. now apply IH.
Qed.

Lemma filter_id_keep :
  filter (fun p => Z.eqb (Port.id p) kid) (Db.ports d) = [keep].
Proof. apply filter_id_unique; [exact ND|apply keep_in_ports]. Qed.

(** After the group is merged, its key selects the survivor alone. *)
Lemma group_after :
  filter (in_group k)
         (map (upd kid keep') (filter (fun p => negb (mem (Port.id p) dels)) (Db.ports d)))
  = [keep'].
Proof.
  rewrite survivors_in_group by apply incl_refl.
  now rewrite filter_id_keep.
Qed.

(** The rows selected by any other key are left as they were. *)
Lemma other_group_after k' (l : list Port.t) :
  k' <> k -> incl l (Db.ports d) ->
  filter (in_group k')
         (map (upd kid keep') (filter (fun p => negb (mem (Port.id p) dels)) l))
  = filter (in_group k') l.
Proof.
  intros Hk. induction l as [|p l IH]; intros Hl; simpl; [reflexivity|].
  assert (Hp : In p (Db.ports d)) by (apply Hl; now left).
  assert (Hl' : incl l (Db.ports d)) by (intros x Hx; apply Hl; now right).
  assert (K' : in_group k' keep' = false).
  { apply not_true_is_false. intros H. apply Hk.
    eapply in_group_key; eauto. }
  rewrite (deleted_iff _ Hp).
  destruct (Z.eqb_spec (Port.id p) kid) as [E|E]; simpl.
  - assert (p = keep) by now apply id_kid_is_keep. subst p.
    rewrite !(upd_hit _ _ _ E), K'.
    assert (G' : in_group k' keep = false).
    { apply not_true_is_false. intros H. apply Hk.
      eapply in_group_key; [exact H|apply keep_in_ports]. }
    rewrite G'. now apply IH.
  - destruct (in_group k p) eqn:G; simpl.
    + assert (G' : in_group k' p = false).
      { apply not_true_is_false. intros H. apply Hk.
        eapply in_group_key; eauto. }
      rewrite G'. now apply IH.
    + rewrite !(upd_miss _ _ _ E).
      destruct (in_group k' p); now rewrite IH.
Qed.

End OneGroup.

Lemma disjoint_groups d k k' x :
  NoDup (port_ids d) -> k <> k' ->
  In x (group_ids d k) -> ~ In x (group_ids d k').
Proof.
  intros ND Hk H1 H2. apply Hk.
  unfold group_ids, ports_of_key in *.
  apply in_map_iff in H1. destruct H1 as (p & E1 & Hp).
  apply in_map_iff in H2. destruct H2 as (q & E2 & Hq).
  apply filter_In in Hp. destruct Hp as [Hp Gp].
  apply filter_In in Hq. destruct Hq as [Hq Gq].
  assert (p = q)
    by (apply (NoDup_id_inj (Db.ports d)); [exact ND|exact Hp|exact Hq|congruence]).
  subst q. eapply in_group_key; eauto.
Qed.

Lemma location_count_renamed d d1 F x :
  Db.mac_locations d1 = map (Rename.location F) (Db.mac_locations d) ->
  (forall y, Z.eqb (F y) x = Z.eqb y x) ->
  location_count d1 x = location_count d x.
Proof.
  intros H E. unfold location_count. rewrite H. clear H.
  induction (Db.mac_locations d) as [|l ls IH]; simpl; [reflexivity|].
  replace (MacLocation.port_id (Rename.location F l)) with (F (MacLocation.port_id l))
    by now destruct l.
  rewrite E. destruct (Z.eqb (MacLocation.port_id l) x); simpl; now rewrite IH.
Qed.

(** [d'] keeps the references of [d] up to the renaming [F]. *)
Definition refs_renamed (F : Z -> Z) (d d' : Db.t) : Prop :=
  Db.mac_locations d' = map (Rename.location F) (Db.mac_locations d) /\
  Db.mac_history d' = map (Rename.history F) (Db.mac_history d) /\
  Db.topology_links d' = map (Rename.link F) (Db.topology_links d).

Lemma refs_renamed_id d : refs_renamed (fun x => x) d d.
Proof.
  unfold refs_renamed. split; [|split].
  - rewrite <- (map_id (Db.mac_locations d)) at 1.
    apply map_ext. intros l. symmetry. apply rename_location_id.
  - rewrite <- (map_id (Db.mac_history d)) at 1.
    apply map_ext. intros h. symmetry. apply rename_history_id.
  - rewrite <- (map_id (Db.topology_links d)) at 1.
    apply map_ext. intros l. symmetry. apply rename_link_id.
Qed.

Lemma refs_renamed_trans F G d d1 d2 :
  refs_renamed F d d1 -> refs_renamed G d1 d2 ->
  refs_renamed (fun x => G (F x)) d d2.
Proof.
  intros (A1 & A2 & A3) (B1 & B2 & B3). unfold refs_renamed.
  rewrite B1, B2, B3, A1, A2, A3, !map_map. split; [|split].
  - apply map_ext. intros. apply rename_location_compose.
  - apply map_ext. intros. apply rename_history_compose.
  - apply map_ext. intros. apply rename_link_compose.
Qed.

Lemma merge_group_spec d m k p0 rest :
  NoDup (port_ids d) ->
  ports_of_key d k = p0 :: rest ->
  let keep := choose_keep d p0 rest in
  let F := to_survivor (Port.id keep) (dels_of (Port.id keep) (p0 :: rest)) in
  exists d1 m1,
    merge_group (d, m) k = (d1, m1) /\
    refs_renamed F d d1 /\
    port_ids d1 =
      filter (fun x => negb (mem x (dels_of (Port.id keep) (p0 :: rest)))) (port_ids d) /\
    (exists q, ports_of_key d1 k = [q] /\ Port.id q = Port.id keep) /\
    (forall k', k' <> k -> ports_of_key d1 k' = ports_of_key d k').
Proof.
  intros ND HG keep F.
  assert (Hkeep : In keep (ports_of_key d k)).
  { rewrite HG. apply choose_keep_spec. }
  unfold merge_group. rewrite HG. fold keep.
  destruct (merge_loop (p0 :: rest) keep d m) as [[keep' d'] m'] eqn:ML.
  apply merge_loop_spec in ML.
  destruct ML as (K1 & K2 & K3 & K4 & (M1 & M2 & M3 & M4 & M5 & M6 & M7)).
  assert (KG : in_group k keep' = true).
  { destruct (keep_in_ports d k keep Hkeep) as [_ G].
    unfold in_group in *. now rewrite K2, K3. }
  exists (store_port keep' d'), m'.
  split; [reflexivity|].
  split; [|split; [|split]].
  - unfold refs_renamed. simpl. auto.
  - unfold port_ids. rewrite store_port_ports, map_id_upd by reflexivity.
    rewrite M4. apply (map_id_filter (fun x => negb (mem x _))).
  - exists keep'. split; [|exact K1].
    unfold ports_of_key. rewrite store_port_ports, M4, K1, <- HG.
    apply group_after; assumption.
  - intros k' Hk'. unfold ports_of_key. rewrite store_port_ports, M4, K1, <- HG.
    apply other_group_after; try assumption. apply incl_refl.
Qed.

(** The whole pass, group after group.  [F] is the renaming of port ids
    the pass applies to the references. *)
Lemma cleanup_fold ks : forall d m,
  NoDup (port_ids d) -> NoDup ks ->
  exists F,
    let d' := fst (fold_left merge_group ks (d, m)) in
    refs_renamed F d d' /\
    incl (port_ids d') (port_ids d) /\
    (forall k, ~ In k ks -> ports_of_key d' k = ports_of_key d k) /\
    (forall x, (forall k, In k ks -> ~ In x (group_ids d k)) -> F x = x) /\
    (forall k p0 rest, In k ks -> ports_of_key d k = p0 :: rest ->
       (exists q, ports_of_key d' k = [q] /\ Port.id q = Port.id (choose_keep d p0 rest)) /\
       (forall p, In p (p0 :: rest) -> F (Port.id p) = Port.id (choose_keep d p0 rest)) /\
       (forall p, In p (p0 :: rest) -> Port.id p <> Port.id (choose_keep d p0 rest) ->
                  ~ In (Port.id p) (port_ids d'))).
Proof.
  induction ks as [|k ks IH]; intros d m ND NK; cbn [fold_left].
  - exists (fun x => x). simpl. split; [apply refs_renamed_id|].
    split; [apply incl_refl|]. split; [reflexivity|]. split; [reflexivity|].
    intros ? ? ? [].
  - inversion NK as [|? ? Hk NK']; subst.
    destruct (ports_of_key d k) as [|p0 rest] eqn:HG.
    + (* nothing to merge under this key *)
      assert (E : merge_group (d, m) k = (d, m))
        by (unfold merge_group; now rewrite HG).
      rewrite E.
      destruct (IH d m ND NK') as (F & R & I & Fr & Fx & G).
      exists F. split; [exact R|]. split; [exact I|]. split; [|split].
      * intros k0 H0. apply Fr. intros H. apply H0. now right.
      * intros x H. apply Fx. intros k0 H0. apply H. now right.
      * intros k0 q0 rest0 [<-|H0] HG0; [congruence|]. now apply G.
    + destruct (merge_group_spec d m k p0 rest ND HG)
        as (d1 & m1 & E & R1 & P1 & (q & Q1 & Q2) & O1).
      rewrite E.
      set (keep := choose_keep d p0 rest) in *.
      set (dels := dels_of (Port.id keep) (p0 :: rest)) in *.
      assert (Hkeep : In keep (ports_of_key d k))
        by (rewrite HG; apply choose_keep_spec).
      assert (ND1 : NoDup (port_ids d1)) by (rewrite P1; now apply NoDup_filter).
      destruct (IH d1 m1 ND1 NK') as (F' & R & I & Fr & Fx & G).
      assert (Same : forall k', In k' ks -> ports_of_key d1 k' = ports_of_key d k').
      { intros k' H'. apply O1. intros ->. contradiction. }
      assert (I1 : incl (port_ids d1) (port_ids d)).
      { rewrite P1. intros x Hx. now apply filter_In in Hx. }
      assert (Fkid : F' (Port.id keep) = Port.id keep).
      { apply Fx. intros k' H'. unfold group_ids. rewrite (Same k' H').
        apply (disjoint_groups d k k' (Port.id keep) ND).
        - intros ->. contradiction.
        - unfold group_ids. now apply in_map. }
      exists (fun x => F' (to_survivor (Port.id keep) dels x)).
      split; [eapply refs_renamed_trans; eauto|].
      split; [intros x Hx; auto|].
      split; [|split].
      * intros k0 H0. rewrite Fr by (intros H; apply H0; now right).
        apply O1. intros ->. apply H0. now left.
      * intros x H.
        unfold dels. rewrite <- HG.
        rewrite (outsider_not_renamed d k keep) by (apply H; now left).
        apply Fx. intros k' H'. unfold group_ids. rewrite (Same k' H').
        apply H. now right.
      * intros k0 q0 rest0 [<-|H0] HG0.
        -- (* the group just merged *)
           rewrite HG in HG0. injection HG0 as <- <-. fold keep.
           split; [|split].
           ++ exists q. rewrite Fr by exact Hk. now split.
           ++ intros p Hp. unfold dels. rewrite <- HG in Hp |- *.
              rewrite (group_member_renamed d k keep ND p Hp). exact Fkid.
           ++ intros p Hp Hne Hin. apply I in Hin. rewrite P1 in Hin.
              apply filter_In in Hin. destruct Hin as [_ Hin].
              apply negb_true_iff, mem_false in Hin. apply Hin.
              unfold dels, dels_of. apply filter_In. split; [now apply in_map|].
              now apply negb_true_iff, Z.eqb_neq.
        -- (* a group merged later *)
           assert (Hne : k <> k0) by (intros ->; contradiction).
           assert (Out : forall p, In p (q0 :: rest0) ->
                                   ~ In (Port.id p) (group_ids d k)).
           { intros p Hp. apply (disjoint_groups d k0 k (Port.id p) ND); [congruence|].
             unfold group_ids. rewrite HG0. now apply in_map. }
           assert (HG1 : ports_of_key d1 k0 = q0 :: rest0)
             by (rewrite (Same k0 H0); exact HG0).
           assert (EK : choose_keep d1 q0 rest0 = choose_keep d q0 rest0).
           { apply choose_keep_ext. intros p Hp.
             apply (location_count_renamed d d1 _ _ (proj1 R1)). intros y.
             unfold dels. rewrite <- HG.
             apply (renamed_eq_outsider d k keep Hkeep). now apply Out. }
           destruct (G k0 q0 rest0 H0 HG1) as (G1 & G2 & G3).
           rewrite EK in G1, G2, G3.
           split; [exact G1|]. split; [|exact G3].
           intros p Hp. unfold dels. rewrite <- HG.
           rewrite (outsider_not_renamed d k keep) by (now apply Out).
           now apply G2.
Qed.

(** *** The groups the pass visits *)

Lemma key_eqb_eq a b : key_eqb a b = true <-> a = b.
Proof.
  unfold key_eqb. destruct a as [a1 a2], b as [b1 b2]; simpl.
  rewrite andb_true_iff, !Z.eqb_eq. split; [intros []|intros [=]]; subst; auto.
Qed.

Lemma dedup_keys_In k l : In k (dedup_keys l) <-> In k l.
Proof.
  induction l as [|a l IH]; simpl; [tauto|].
  rewrite filter_In, IH. split.
  - intros [H|[H _]]; auto.
  - intros [H|H]; [now left|].
    destruct (key_eqb k a) eqn:E.
    + left. symmetry. now apply key_eqb_eq.
    + right. now split.
Qed.

Lemma dedup_keys_NoDup l : NoDup (dedup_keys l).
Proof.
  induction l as [|a l IH]; simpl; constructor.
  - rewrite filter_In. intros [_ H].
    assert (E : key_eqb a a = true) by now apply key_eqb_eq.
    now rewrite E in H.
  - now apply NoDup_filter.
Qed.

Lemma has_key_in_group sw idx p :
  (0 < idx)%Z -> has_key (sw, idx) p = in_group (sw, idx) p.
Proof.
  intros Hi. unfold has_key, in_group, port_key, key_eqb, opt_Z_eqb; simpl.
  destruct (Port.port_index p) as [i|]; [|now rewrite andb_false_r].
  destruct (Z.ltb_spec 0 i); [reflexivity|].
  symmetry. apply andb_false_iff. right. apply Z.eqb_neq. lia.
Qed.

Lemma in_duplicates d sw idx :
  (0 < idx)%Z -> (2 <= List.length (ports_of_key d (sw, idx)))%nat ->
  In (sw, idx) (duplicates d).
Proof.
  intros Hi Hn. unfold duplicates. apply dedup_keys_In, in_flat_map.
  destruct (ports_of_key d (sw, idx)) as [|p rest] eqn:HG; [simpl in Hn; lia|].
  assert (Hp : In p (ports_of_key d (sw, idx))) by (rewrite HG; now left).
  unfold ports_of_key in Hp. apply filter_In in Hp. destruct Hp as [Hp Gp].
  exists p. split; [exact Hp|].
  assert (K : port_key p = Some (sw, idx)).
  { unfold in_group, opt_Z_eqb in Gp. simpl in Gp. unfold port_key.
    destruct (Port.port_index p) as [i|]; [|now rewrite andb_false_r in Gp].
    apply andb_true_iff in Gp. destruct Gp as [G1 G2].
    apply Z.eqb_eq in G1, G2. subst.
    now rewrite (proj2 (Z.ltb_lt _ _) Hi). }
  rewrite K.
  rewrite (filter_ext _ _ (fun q => has_key_in_group sw idx q Hi)).
  fold (ports_of_key d (sw, idx)). rewrite HG.
  destruct (Nat.ltb_spec 1 (List.length (p :: rest))); [now left|lia].
Qed.

Lemma in_some_group_dec d ks x :
  (exists k, In k ks /\ In x (group_ids d k)) \/
  (forall k, In k ks -> ~ In x (group_ids d k)).
Proof.
  induction ks as [|k ks IH]; [right; intros ? []|].
  destruct (in_dec Z.eq_dec x (group_ids d k)) as [H|H].
  - left. exists k. split; [now left|exact H].
  - destruct IH as [(k' & H1 & H2)|IH].
    + left. exists k'. split; [now right|exact H2].
    + right. intros k' [<-|H']; auto.
Qed.

(** C4.  For two or more Port rows of one switch that share a positive
    [port_index], one run of the port-merge pass leaves exactly one of
    them, the row [keep] with the most MacLocation references (among rows
    with as many, one that carries a neighbor name when any does); the
    other rows of the group are deleted; and every MacLocation, MacHistory
    ([port_id] and [previous_port_id]) and TopologyLink ([local_port_id]
    and [remote_port_id]) reference is renamed by [F], which sends the rows
    of the group to [keep] and leaves the ids of surviving rows alone.
    The ids of the ports table are its primary key. *)
Theorem cleanup_duplicate_ports_merges (d : Db.t) (sw idx : Z) :
  NoDup (port_ids d) ->
  (0 < idx)%Z ->
  (2 <= List.length (ports_of_key d (sw, idx)))%nat ->
  let d' := fst (_cleanup_duplicate_ports d) in
  exists (keep : Port.t) (F : Z -> Z),
    In keep (ports_of_key d (sw, idx)) /\
    (forall p, In p (ports_of_key d (sw, idx)) ->
       (location_count d (Port.id p) <= location_count d (Port.id keep))%nat /\
       (location_count d (Port.id p) = location_count d (Port.id keep) ->
        truthy (Port.lldp_neighbor_name p) = true ->
        truthy (Port.lldp_neighbor_name keep) = true)) /\
    (exists q, ports_of_key d' (sw, idx) = [q] /\ Port.id q = Port.id keep) /\
    (forall p, In p (ports_of_key d (sw, idx)) -> Port.id p <> Port.id keep ->
       ~ In (Port.id p) (port_ids d')) /\
    Db.mac_locations d' = map (Rename.location F) (Db.mac_locations d) /\
    Db.mac_history d' = map (Rename.history F) (Db.mac_history d) /\
    Db.topology_links d' = map (Rename.link F) (Db.topology_links d) /\
    (forall p, In p (ports_of_key d (sw, idx)) -> F (Port.id p) = Port.id keep) /\
    (forall x, In x (port_ids d') -> F x = x).
Proof.
  intros ND Hi Hn d'.
  destruct (ports_of_key d (sw, idx)) as [|p0 rest] eqn:HG; [simpl in Hn; lia|].
  assert (Hk : In (sw, idx) (duplicates d)) by (apply in_duplicates; [|rewrite HG]; auto).
  destruct (cleanup_fold (duplicates d) d O ND (dedup_keys_NoDup _))
    as (F & (R1 & R2 & R3) & I & Fr & Fx & G).
  fold (_cleanup_duplicate_ports d) in *. fold d' in R1, R2, R3, I, Fr, G.
  destruct (G (sw, idx) p0 rest Hk HG) as (G1 & G2 & G3).
  destruct (choose_keep_spec d rest p0) as [Kin Kmax].
  exists (choose_keep d p0 rest), F.
  split; [exact Kin|]. split.
  { intros p Hp. destruct (Kmax p Hp) as [L|[L T]]; split; auto; lia. }
  split; [exact G1|]. split; [exact G3|].
  split; [exact R1|]. split; [exact R2|]. split; [exact R3|].
  split; [exact G2|].
  intros x Hx.
  destruct (in_some_group_dec d (duplicates d) x) as [(k & K1 & K2)|H];
    [|now apply Fx].
  unfold group_ids in K2. apply in_map_iff in K2. destruct K2 as (p & <- & Hp).
  destruct (ports_of_key d k) as [|q0 rest0] eqn:HGk; [contradiction|].
  destruct (G k q0 rest0 K1 HGk) as (_ & H2 & H3).
  destruct (Z.eq_dec (Port.id p) (Port.id (choose_keep d q0 rest0))) as [E|E].
  - rewrite (H2 p Hp). now rewrite E.
  - exfalso. now apply (H3 p Hp E).
Qed.

End PortMergeFacts.

Section PortMergeExample.
Import LldpDiscovery.
Local Open Scope string_scope.
Local Open Scope Z_scope.

Example cleanup_merge_example :
  _cleanup_duplicate_ports Samples.merge_example =
  (Db.mk
     (Db.switches Samples.merge_example)
     [Port.mk 11 1 "GE1/0/4" (Some 4) "uplink" (Some 1) true 1
              (Some "01_L3_Core_251") (Some "switch");
      Port.mk 12 1 "GE1/0/5" (Some 5) "access" (Some 1) false 0 None None]
     (Db.mac_addresses Samples.merge_example)
     [MacLocation.mk 1 1 1 11 (Some 1) 100 true]
     [MacHistory.mk 1 1 1 11 (Some 1) "move" 100 (Some 1) (Some 11)]
     [TopologyLink.mk 1 1 11 2 None "lldp"]
     [],
   1%nat).
Proof. reflexivity. Qed.

Lemma cleanup_duplicate_ports_merges_witness :
  NoDup (port_ids Samples.merge_example) /\
  (0 < 4)%Z /\
  (2 <= List.length (ports_of_key Samples.merge_example (1%Z, 4%Z)))%nat /\
  let d := Samples.merge_example in
  let d' := fst (_cleanup_duplicate_ports d) in
  exists (keep : Port.t) (F : Z -> Z),
    In keep (ports_of_key d (1, 4)) /\
    (forall p, In p (ports_of_key d (1, 4)) ->
       (location_count d (Port.id p) <= location_count d (Port.id keep))%nat /\
       (location_count d (Port.id p) = location_count d (Port.id keep) ->
        truthy (Port.lldp_neighbor_name p) = true ->
        truthy (Port.lldp_neighbor_name keep) = true)) /\
    (exists q, ports_of_key d' (1, 4) = [q] /\ Port.id q = Port.id keep) /\
    (forall p, In p (ports_of_key d (1, 4)) -> Port.id p <> Port.id keep ->
       ~ In (Port.id p) (port_ids d')) /\
    Db.mac_locations d' = map (Rename.location F) (Db.mac_locations d) /\
    Db.mac_history d' = map (Rename.history F) (Db.mac_history d) /\
    Db.topology_links d' = map (Rename.link F) (Db.topology_links d) /\
    (forall p, In p (ports_of_key d (1, 4)) -> F (Port.id p) = Port.id keep) /\
    (forall x, In x (port_ids d') -> F x = x).
Proof.
  assert (ND : NoDup (port_ids Samples.merge_example)).
  { unfold port_ids. simpl. repeat constructor; simpl; intuition lia. }
  assert (H1 : (0 < 4)%Z) by lia.
  assert (H2 : (2 <= List.length (ports_of_key Samples.merge_example (1%Z, 4%Z)))%nat)
    by (simpl; lia).
  split; [exact ND|]. split; [exact H1|]. split; [exact H2|].
  exact (cleanup_duplicate_ports_merges Samples.merge_example 1 4 ND H1 H2).
Defined.

End PortMergeExample.

(** ** The topology graph *)

Section DictFacts.
Variable V : Type.
Implicit Types m : Dict.t V.

Lemma dict_get_set_same m k v : Dict.get (Dict.set m k v) k = Some v.
Proof.
  induction m as [|[k' v'] m IH]; simpl.
  - now rewrite Z.eqb_refl.
  - destruct (Z.eqb k' k) eqn:E; simpl; now rewrite E.
Qed.

Lemma dict_get_set_other m k v k' :
  k <> k' -> Dict.get (Dict.set m k v) k' = Dict.get m k'.
Proof.
  intros H. induction m as [|[k0 v0] m IH]; simpl.
  - now rewrite (proj2 (Z.eqb_neq _ _) H).
  - destruct (Z.eqb_spec k0 k) as [->|E]; simpl.
    + now rewrite (proj2 (Z.eqb_neq _ _) H).
    + now rewrite IH.
Qed.

Lemma dict_mem_set m k v k' :
  Dict.mem (Dict.set m k v) k' = Z.eqb k k' || Dict.mem m k'.
Proof.
  unfold Dict.mem. destruct (Z.eqb_spec k k') as [->|E].
  - now rewrite dict_get_set_same.
  - now rewrite dict_get_set_other.
Qed.

Lemma dict_keys_get m k : In k (Dict.keys m) <-> Dict.mem m k = true.
Proof.
  unfold Dict.mem, Dict.keys.
  induction m as [|[k' v'] m IH]; simpl; [split; [tauto|discriminate]|].
  destruct (Z.eqb_spec k' k) as [->|E]; [tauto|].
  rewrite IH. split; [intros [H|H]; [contradiction|exact H]|auto].
Qed.

End DictFacts.

Section GraphFacts.
Import NetworkGraph Paths.

(** [has_edge adj x y]: the test behind [edge]. *)
Definition has_edge (adj : adjacency_t) (x y : Z) : bool :=
  match Dict.get adj x with
  | Some row => Dict.mem row y
  | None => false
  end.

Lemma edge_has_edge adj x y : edge adj x y <-> has_edge adj x y = true.
Proof.
  unfold edge, neighbors, has_edge.
  destruct (Dict.get adj x) as [row|]; [apply dict_keys_get|].
  split; [intros []|discriminate].
Qed.

Lemma has_edge_add_switch adj sw x y :
  (forall a b, has_edge adj a b = false) ->
  has_edge (add_switch adj sw) x y = false.
Proof.
  intros H. unfold add_switch, has_edge.
  destruct (Z.eq_dec (Switch.id sw) x) as [->|E].
  - now rewrite dict_get_set_same.
  - rewrite dict_get_set_other by exact E. apply H.
Qed.

Lemma has_edge_ensure adj k x y : has_edge (ensure adj k) x y = has_edge adj x y.
Proof.
  unfold ensure. destruct (Dict.mem adj k) eqn:M; [reflexivity|].
  unfold has_edge. destruct (Z.eq_dec k x) as [->|E].
  - rewrite dict_get_set_same. unfold Dict.mem in M.
    now destruct (Dict.get adj x).
  - now rewrite dict_get_set_other.
Qed.

Lemma mem_ensure adj k k' :
  Dict.mem (ensure adj k) k' = Z.eqb k k' || Dict.mem adj k'.
Proof.
  unfold ensure. destruct (Dict.mem adj k) eqn:M; [|apply dict_mem_set].
  destruct (Z.eqb_spec k k') as [<-|E]; [now rewrite M|reflexivity].
Qed.

Lemma has_edge_set_edge adj a b data x y :
  Dict.mem adj a = true ->
  has_edge (set_edge adj a b data) x y =
  has_edge adj x y || (Z.eqb a x && Z.eqb b y).
Proof.
  intros M. unfold set_edge, Dict.mem in *.
  destruct (Dict.get adj a) as [row|] eqn:G; [|discriminate].
  unfold has_edge. destruct (Z.eqb_spec a x) as [<-|E].
  - rewrite dict_get_set_same, G, dict_mem_set. simpl.
    now rewrite orb_comm.
  - rewrite dict_get_set_other by exact E. simpl. now rewrite orb_false_r.
Qed.

Lemma mem_set_edge adj a b data k :
  Dict.mem (set_edge adj a b data) k = Dict.mem adj k.
Proof.
  unfold set_edge. destruct (Dict.get adj a) as [row|] eqn:G; [|reflexivity].
  rewrite dict_mem_set. destruct (Z.eqb_spec a k) as [<-|E]; [|reflexivity].
  unfold Dict.mem. now rewrite G.
Qed.

Lemma has_edge_add_link adj link x y :
  has_edge (add_link adj link) x y =
  has_edge adj x y
  || (Z.eqb (TopologyLink.local_switch_id link) x && Z.eqb (TopologyLink.remote_switch_id link) y)
  || (Z.eqb (TopologyLink.remote_switch_id link) x && Z.eqb (TopologyLink.local_switch_id link) y).
Proof.
  unfold add_link.
  rewrite has_edge_set_edge.
  - rewrite has_edge_set_edge.
    + now rewrite !has_edge_ensure.
    + rewrite !mem_ensure, Z.eqb_refl. now rewrite orb_true_r.
  - rewrite mem_set_edge, !mem_ensure, Z.eqb_refl. reflexivity.
Qed.

(** The adjacency [build] makes is symmetric. *)
Definition symmetric (adj : adjacency_t) : Prop :=
  forall x y, has_edge adj x y = has_edge adj y x.

Lemma add_switches_no_edge sws : forall adj,
  (forall a b, has_edge adj a b = false) ->
  forall a b, has_edge (fold_left add_switch sws adj) a b = false.
Proof.
  induction sws as [|sw sws IH]; intros adj H a b; simpl; [apply H|].
  apply IH. intros. now apply has_edge_add_switch.
Qed.

Lemma add_links_symmetric links : forall adj,
  symmetric adj -> symmetric (fold_left add_link links adj).
Proof.
  induction links as [|l links IH]; intros adj H; simpl; [exact H|].
  apply IH. intros x y. rewrite !has_edge_add_link, (H x y).
  destruct (has_edge adj y x); simpl; [reflexivity|].
  repeat match goal with
         | |- context [Z.eqb ?a ?b] => destruct (Z.eqb a b)
         end; reflexivity.
Qed.

Lemma build_symmetric d : symmetric (adjacency (build d)).
Proof.
  unfold build. simpl. apply add_links_symmetric.
  intros x y. rewrite !add_switches_no_edge; auto.
Qed.

(** *** Walks *)

Lemma Walk_nonempty adj a b p : Walk adj a b p -> (1 <= List.length p)%nat.
Proof.
  intros H. destruct H; simpl; [lia|].
  rewrite length_app. simpl. lia.
Qed.

Lemma Walk_cons adj x a b p :
  edge adj x a -> Walk adj a b p -> Walk adj x b (x :: p).
Proof.
  intros E W. induction W as [|m b p W IH E'].
  - apply (Walk_snoc adj x x a [x]); [constructor|exact E].
  - change (x :: p ++ [b]) with ((x :: p) ++ [b]).
    eapply Walk_snoc; eauto.
Qed.

Lemma Walk_rev adj a b p :
  symmetric adj -> Walk adj a b p -> Walk adj b a (rev p).
Proof.
  intros HS W. induction W as [|m b p W IH E].
  - constructor.
  - rewrite rev_app_distr. simpl. apply (Walk_cons adj b m a); [|exact IH].
    apply edge_has_edge. rewrite HS. now apply edge_has_edge.
Qed.

Lemma edge_in_all_ids adj x y : edge adj x y -> In y (all_ids adj).
Proof.
  unfold edge, neighbors, all_ids. intros H. apply in_or_app. right.
  destruct (Dict.get adj x) as [row|] eqn:G; [|contradiction].
  apply in_flat_map. exists (x, row). split; [|exact H].
  clear H. induction adj as [|[k v] adj IH]; simpl in *; [discriminate|].
  destruct (Z.eqb_spec k x) as [->|E].
  - injection G as ->. now left.
  - right. now apply IH.
Qed.

Lemma key_in_all_ids adj x : Dict.mem adj x = true -> In x (all_ids adj).
Proof.
  intros H. unfold all_ids. apply in_or_app. left. now apply dict_keys_get.
Qed.

(** *** The search *)

Section Search.
Variable adj : adjacency_t.
Variables a t : Z.
Hypothesis a_not_t : a <> t.
Hypothesis a_known : In a (all_ids adj).

Definition shortest (u : Z) (pu : list Z) : Prop :=
  forall w, Walk adj a u w -> (List.length pu <= List.length w)%nat.

Definition by_length (e1 e2 : Z * list Z) : Prop :=
  (List.length (snd e1) <= List.length (snd e2))%nat.

(** The queue lists paths of non-decreasing length, none more than one
    switch longer than the first. *)
Definition ordered (Q : list (Z * list Z)) : Prop :=
  StronglySorted by_length Q /\
  match Q with
  | [] => True
  | e0 :: _ => forall e, In e Q -> (List.length (snd e) <= S (List.length (snd e0)))%nat
  end.

(** The invariant of the [while] loop. *)
Record Inv (V : list Z) (Q : list (Z * list Z)) : Prop := {
  inv_start : In a V;
  inv_target : ~ In t V;
  inv_walk : forall u pu, In (u, pu) Q -> Walk adj a u pu /\ In u V;
  inv_closed : forall u, In u V ->
      (exists pu, In (u, pu) Q) \/ (forall y, edge adj u y -> In y V);
  inv_shortest : forall u pu, In (u, pu) Q -> shortest u pu;
  inv_ordered : ordered Q;
  inv_nodup : NoDup V;
  inv_known : incl V (all_ids adj)
}.

Lemma head_is_least u pu Q e :
  ordered ((u, pu) :: Q) -> In e ((u, pu) :: Q) ->
  (List.length pu <= List.length (snd e))%nat.
Proof.
  intros [HS _] [<-|H]; [simpl; lia|].
  inversion HS as [|? ? _ F]; subst.
  rewrite Forall_forall in F. exact (F e H).
Qed.

(** Every walk to a switch not yet visited is longer than the path at
    the head of the queue. *)
Lemma frontier_bound V u pu Q :
  Inv V ((u, pu) :: Q) ->
  forall m w, Walk adj a m w -> ~ In m V ->
              (S (List.length pu) <= List.length w)%nat.
Proof.
  intros I m w W. induction W as [|m' m p W IH E]; intros Hm.
  - exfalso. apply Hm. apply I.
  - rewrite length_app. simpl.
    destruct (in_dec Z.eq_dec m' V) as [Hin|Hout].
    + destruct (inv_closed _ _ I m' Hin) as [[pm Hq]|Hc].
      * pose proof (inv_shortest _ _ I m' pm Hq p W) as L1.
        pose proof (head_is_least u pu Q (m', pm) (inv_ordered _ _ I) Hq) as L2.
        simpl in L2. lia.
      * exfalso. apply Hm. now apply Hc.
    + specialize (IH Hout). lia.
Qed.

Lemma StronglySorted_snoc (l : list (Z * list Z)) x :
  StronglySorted by_length l -> (forall e, In e l -> by_length e x) ->
  StronglySorted by_length (l ++ [x]).
Proof.
  induction l as [|y l IH]; intros HS H; simpl.
  - repeat constructor.
  - inversion HS as [|? ? HS' F]; subst. constructor.
    + apply IH; [exact HS'|]. intros e He. apply H. now right.
    + apply Forall_app. split; [exact F|].
      constructor; [|constructor]. apply H. now left.
Qed.

Lemma ordered_tail e Q : ordered (e :: Q) -> ordered Q.
Proof.
  intros [HS B]. inversion HS as [|? ? HS' F]; subst.
  split; [exact HS'|]. destruct Q as [|e1 Q]; [exact I|].
  intros x Hx. rewrite Forall_forall in F.
  pose proof (B x (or_intror Hx)). pose proof (F e1 (or_introl eq_refl)) as L.
  unfold by_length in L. lia.
Qed.

Lemma ordered_snoc u pu Q n :
  ordered ((u, pu) :: Q) -> ordered ((u, pu) :: Q ++ [(n, pu ++ [n])]).
Proof.
  intros [HS B]. simpl in B.
  assert (L : List.length (pu ++ [n]) = S (List.length pu))
    by (rewrite length_app; simpl; lia).
  split.
  - change ((u, pu) :: Q ++ [(n, pu ++ [n])]) with (((u, pu) :: Q) ++ [(n, pu ++ [n])]).
    apply StronglySorted_snoc; [exact HS|].
    intros e He. unfold by_length. simpl. rewrite L. now apply B.
  - intros e [<-|He]; [simpl; lia|].
    apply in_app_or in He. destruct He as [He|[<-|[]]].
    + apply B. now right.
    + simpl. lia.
Qed.

(** Taking the head off the queue once all its neighbors are visited. *)
Lemma Inv_dequeue V u pu Q :
  Inv V ((u, pu) :: Q) -> (forall y, edge adj u y -> In y V) -> Inv V Q.
Proof.
  intros I C. constructor; try apply I.
  - intros u' pu' H. apply (inv_walk _ _ I). now right.
  - intros u' H. destruct (inv_closed _ _ I u' H) as [[p [E|Hq]]|Hc].
    + injection E as <- <-. now right.
    + left. now exists p.
    + now right.
  - intros u' pu' H. apply (inv_shortest _ _ I). now right.
  - eapply ordered_tail. apply I.
Qed.

(** Queueing a neighbor of the head that was not visited. *)
Lemma in_enqueued (e x y : Z * list Z) Q :
  In e (x :: Q ++ [y]) -> In e (x :: Q) \/ e = y.
Proof.
  intros [H|H]; [left; now left|].
  apply in_app_or in H. destruct H as [H|[H|[]]]; [left; now right|now right].
Qed.

Lemma Inv_enqueue V u pu Q n :
  Inv V ((u, pu) :: Q) -> edge adj u n -> n <> t -> ~ In n V ->
  Inv (n :: V) ((u, pu) :: Q ++ [(n, pu ++ [n])]).
Proof.
  intros I E Nt Nv.
  assert (Wu : Walk adj a u pu) by (apply (inv_walk _ _ I); now left).
  constructor.
  - right. apply I.
  - intros [H|H]; [congruence|]. now apply (inv_target _ _ I).
  - intros u' pu' H. apply in_enqueued in H. destruct H as [H|H].
    + destruct (inv_walk _ _ I u' pu' H) as [W Hin]. split; [exact W|now right].
    + injection H as -> ->. split; [|now left]. eapply Walk_snoc; eauto.
  - intros u' [<-|H].
    + left. exists (pu ++ [n]). right. apply in_or_app. right. now left.
    + destruct (inv_closed _ _ I u' H) as [[p Hq]|Hc].
      * left. exists p. destruct Hq as [Hq|Hq]; [now left|].
        right. apply in_or_app. now left.
      * right. intros y Hy. right. now apply Hc.
  - intros u' pu' H. apply in_enqueued in H. destruct H as [H|H].
    + now apply (inv_shortest _ _ I).
    + injection H as -> ->. intros w W.
      rewrite length_app. simpl.
      pose proof (frontier_bound V u pu Q I n w W Nv). lia.
  - apply ordered_snoc. apply I.
  - constructor; [exact Nv|apply I].
  - intros x [<-|H]; [eapply edge_in_all_ids; eauto|now apply (inv_known _ _ I)].
Qed.

(** The [for] loop over the neighbors of the head [(u, pu)]. *)
Lemma scan_spec u pu : forall ns V Q,
  Inv V ((u, pu) :: Q) ->
  (forall y, In y ns -> edge adj u y) ->
  (forall y, edge adj u y -> In y ns \/ In y V) ->
  match scan t pu ns V Q with
  | inl p => Walk adj a t p /\ shortest t p
  | inr (V', Q') =>
      Inv V' Q' /\ (List.length Q' + List.length V = List.length Q + List.length V')%nat
  end.
Proof.
  induction ns as [|n ns IH]; intros V Q I Hns Hcov; simpl.
  - split; [|lia]. eapply Inv_dequeue; [exact I|].
    intros y Hy. destruct (Hcov y Hy) as [[]|H]; exact H.
  - assert (En : edge adj u n) by (apply Hns; now left).
    destruct (Z.eqb_spec n t) as [->|Nt].
    + assert (Wu : Walk adj a u pu) by (apply (inv_walk _ _ I); now left).
      split; [eapply Walk_snoc; eauto|].
      intros w W. rewrite length_app. simpl.
      pose proof (frontier_bound V u pu Q I t w W (inv_target _ _ I)). lia.
    + destruct (existsb (Z.eqb n) V) eqn:M.
      * apply IH; [exact I| |].
        -- intros y Hy. apply Hns. now right.
        -- intros y Hy. destruct (Hcov y Hy) as [[<-|H]|H]; auto.
           right. now apply mem_In.
      * assert (Nv : ~ In n V) by now apply mem_false.
        pose proof (Inv_enqueue V u pu Q n I En Nt Nv) as I'.
        specialize (IH (n :: V) (Q ++ [(n, pu ++ [n])]) I').
        destruct (scan t pu ns (n :: V) (Q ++ [(n, pu ++ [n])])) as [p|[V' Q']].
        -- apply IH.
           ++ intros y Hy. apply Hns. now right.
           ++ intros y Hy. destruct (Hcov y Hy) as [[<-|H]|H]; simpl; auto.
        -- destruct IH as [I'' L].
           ++ intros y Hy. apply Hns. now right.
           ++ intros y Hy. destruct (Hcov y Hy) as [[<-|H]|H]; simpl; auto.
           ++ split; [exact I''|]. rewrite length_app in L. simpl in L. lia.
Qed.

Lemma visited_bounded V Q :
  Inv V Q -> (List.length V <= List.length (all_ids adj))%nat.
Proof. intros I. apply NoDup_incl_length; apply I. Qed.

Lemma exhausted_unreachable V :
  Inv V [] -> forall w, ~ Walk adj a t w.
Proof.
  intros I w W.
  assert (R : forall m p, Walk adj a m p -> In m V).
  { intros m p Wm. induction Wm as [|m' m p Wm IH E]; [apply I|].
    destruct (inv_closed _ _ I m' IH) as [[pm []]|Hc]. now apply Hc. }
  apply (inv_target _ _ I). eapply R; eauto.
Qed.

(** The [while] loop ends by itself when the fuel covers the switches
    that can still be queued, and its result is right. *)
Lemma bfs_spec : forall fuel V Q,
  Inv V Q ->
  (List.length Q + List.length (all_ids adj) < fuel + List.length V)%nat ->
  exists r,
    bfs fuel adj t V Q = Some r /\
    match r with
    | Some p => Walk adj a t p /\ shortest t p
    | None => forall w, ~ Walk adj a t w
    end.
Proof.
  induction fuel as [|fuel IH]; intros V Q I L.
  - pose proof (visited_bounded V Q I). lia.
  - simpl. destruct Q as [|[u pu] Q].
    + exists None. split; [reflexivity|]. now apply exhausted_unreachable with V.
    + pose proof (scan_spec u pu (neighbors adj u) V Q I) as HS.
      destruct (scan t pu (neighbors adj u) V Q) as [p|[V' Q']].
      * exists (Some p). split; [reflexivity|]. apply HS; auto.
      * destruct HS as [I' L']; auto.
        apply IH; [exact I'|]. simpl in L. lia.
Qed.

Lemma Inv_initial : Inv [a] [(a, [a])].
Proof.
  constructor.
  - now left.
  - intros [H|[]]. contradiction.
  - intros u pu [[= <- <-]|[]]. split; [constructor|now left].
  - intros u [<-|[]]. left. exists [a]. now left.
  - intros u pu [[= <- <-]|[]] w W. now apply Walk_nonempty in W.
  - split; [repeat constructor|]. intros e [<-|[]]. simpl. lia.
  - repeat constructor. intros [].
  - intros x [<-|[]]. exact a_known.
Qed.

Lemma bfs_from_start :
  exists r,
    bfs (enough_fuel adj) adj t [a] [(a, [a])] = Some r /\
    match r with
    | Some p => Walk adj a t p /\ shortest t p
    | None => forall w, ~ Walk adj a t w
    end.
Proof.
  apply bfs_spec; [apply Inv_initial|]. unfold enough_fuel. simpl. lia.
Qed.

End Search.

(** *** [find_path] *)

Lemma scan_found t path : forall ns V Q,
  In t ns -> scan t path ns V Q = inl (path ++ [t]).
Proof.
  induction ns as [|n ns IH]; intros V Q H; [contradiction|]. simpl.
  destruct (Z.eqb_spec n t) as [->|E]; [reflexivity|].
  destruct H as [H|H]; [contradiction|].
  destruct (existsb (Z.eqb n) V); now apply IH.
Qed.

Lemma find_path_spec g a b :
  Dict.mem (adjacency g) a = true ->
  Dict.mem (adjacency g) b = true ->
  match find_path g a b with
  | Some p =>
      Walk (adjacency g) a b p /\
      forall w, Walk (adjacency g) a b w -> (List.length p <= List.length w)%nat
  | None => forall w, ~ Walk (adjacency g) a b w
  end.
Proof.
  intros Ma Mb. unfold find_path. rewrite Ma, Mb. cbn [negb orb].
  destruct (Z.eqb_spec a b) as [<-|E].
  - split; [constructor|]. intros w W. now apply Walk_nonempty in W.
  - destruct (bfs_from_start (adjacency g) a b E (key_in_all_ids _ _ Ma))
      as (r & -> & H).
    exact H.
Qed.

(** The search of [find_path] never stops for lack of fuel. *)
Lemma find_path_search_ends g a b :
  Dict.mem (adjacency g) a = true -> a <> b ->
  exists r, bfs (enough_fuel (adjacency g)) (adjacency g) b [a] [(a, [a])] = Some r.
Proof.
  intros Ma E.
  destruct (bfs_from_start (adjacency g) a b E (key_in_all_ids _ _ Ma)) as (r & H & _).
  now exists r.
Qed.

(** C7.  In the graph built from the store, for switches [a] and [b] of
    the graph: [find_path a b] and [find_path b a] both return a path or
    both return [None]; they return [None] exactly when no walk joins
    the two switches; the paths they return are walks of the graph and
    have the same length; and for adjacent, distinct switches the path is
    the two switches themselves (length 1).  The search loop ends by
    itself within its bound. *)
Theorem find_path_symmetric (d : Db.t) (a b : Z) :
  let g := build d in
  Dict.mem (adjacency g) a = true ->
  Dict.mem (adjacency g) b = true ->
  (find_path g a b = None <-> find_path g b a = None) /\
  (find_path g a b = None <-> ~ connected (adjacency g) a b) /\
  (forall p q, find_path g a b = Some p -> find_path g b a = Some q ->
     Walk (adjacency g) a b p /\ Walk (adjacency g) b a q /\
     List.length p = List.length q) /\
  (edge (adjacency g) a b -> a <> b -> find_path g a b = Some [a; b]) /\
  (a <> b ->
   exists r, bfs (enough_fuel (adjacency g)) (adjacency g) b [a] [(a, [a])] = Some r).
Proof.
  intros g Ma Mb.
  pose proof (build_symmetric d) as Sym. fold g in Sym.
  pose proof (find_path_spec g a b Ma Mb) as Hab.
  pose proof (find_path_spec g b a Mb Ma) as Hba.
  split; [|split; [|split; [|split]]].
  - destruct (find_path g a b) as [p|], (find_path g b a) as [q|];
      split; try discriminate; try reflexivity; intros _; exfalso.
    + destruct Hab as [W _]. exact (Hba _ (Walk_rev _ _ _ _ Sym W)).
    + destruct Hba as [W _]. exact (Hab _ (Walk_rev _ _ _ _ Sym W)).
  - destruct (find_path g a b) as [p|]; split.
    + discriminate.
    + intros H. exfalso. apply H. exists p. apply Hab.
    + intros _ [w W]. exact (Hab w W).
    + reflexivity.
  - intros p q Ep Eq. rewrite Ep in Hab. rewrite Eq in Hba.
    destruct Hab as [Wp Mp], Hba as [Wq Mq].
    split; [exact Wp|]. split; [exact Wq|].
    pose proof (Mp _ (Walk_rev _ _ _ _ Sym Wq)) as L1.
    pose proof (Mq _ (Walk_rev _ _ _ _ Sym Wp)) as L2.
    rewrite length_rev in L1, L2. lia.
  - intros E Ne. unfold find_path. rewrite Ma, Mb. cbn [negb orb].
    rewrite (proj2 (Z.eqb_neq _ _) Ne).
    unfold enough_fuel. cbn [bfs].
    now rewrite (scan_found b [a] (neighbors (adjacency g) a) [a] [] E).
  - intros Ne. now apply find_path_search_ends.
Qed.

End GraphFacts.

Section GraphExamples.
Import NetworkGraph Paths.
Local Open Scope Z_scope.

Example find_path_ring_1_4 :
  find_path (build Samples.ring_example) 1 4 = Some [1; 3; 4].
Proof. reflexivity. Qed.

Example find_path_ring_4_1 :
  find_path (build Samples.ring_example) 4 1 = Some [4; 3; 1].
Proof. reflexivity. Qed.

Example find_path_ring_isolated :
  find_path (build Samples.ring_example) 1 5 = None /\
  find_path (build Samples.ring_example) 5 1 = None.
Proof. split; reflexivity. Qed.

Example find_path_ring_unknown :
  find_path (build Samples.ring_example) 1 9 = None.
Proof. reflexivity. Qed.

Lemma find_path_symmetric_witness :
  let g := build Samples.ring_example in
  Dict.mem (adjacency g) 1 = true /\
  Dict.mem (adjacency g) 4 = true /\
  (find_path g 1 4 = None <-> find_path g 4 1 = None) /\
  (find_path g 1 4 = None <-> ~ connected (adjacency g) 1 4) /\
  (forall p q, find_path g 1 4 = Some p -> find_path g 4 1 = Some q ->
     Walk (adjacency g) 1 4 p /\ Walk (adjacency g) 4 1 q /\
     List.length p = List.length q) /\
  (edge (adjacency g) 1 4 -> 1 <> 4 -> find_path g 1 4 = Some [1; 4]) /\
  (1 <> 4 ->
   exists r, bfs (enough_fuel (adjacency g)) (adjacency g) 4 [1] [(1, [1])] = Some r).
Proof.
  intros g.
  assert (H1 : Dict.mem (adjacency g) 1 = true) by reflexivity.
  assert (H4 : Dict.mem (adjacency g) 4 = true) by reflexivity.
  split; [exact H1|]. split; [exact H4|].
  exact (find_path_symmetric Samples.ring_example 1 4 H1 H4).
Defined.

End GraphExamples.

(** ** The paths of the graph and its core switches *)

Section GraphCoreFacts.
Import NetworkGraph Paths.

Lemma find_path_known g a b p :
  find_path g a b = Some p ->
  Dict.mem (adjacency g) a = true /\ Dict.mem (adjacency g) b = true.
Proof.
  unfold find_path. intros H.
  destruct (Dict.mem (adjacency g) a), (Dict.mem (adjacency g) b);
    simpl in H; try discriminate. now split.
Qed.

(** A path returned by [find_path] lists the switches of a walk from
    the first switch to the second, and no walk between the two is
    shorter. *)
Theorem find_path_shortest g a b p :
  find_path g a b = Some p ->
  Walk (adjacency g) a b p /\
  forall w, Walk (adjacency g) a b w -> (List.length p <= List.length w)%nat.
Proof.
  intros H. destruct (find_path_known g a b p H) as [Ma Mb].
  pose proof (find_path_spec g a b Ma Mb) as S0. now rewrite H in S0.
Qed.

(** *** [find_path_to_core] *)

(** What the loop of [find_path_to_core] holds after the core switches
    [seen]. *)
Definition nearest_so_far (g : t) (sw : Z) (seen : list Z) (acc : option (list Z)) : Prop :=
  match acc with
  | Some p =>
      p <> [] /\
      (exists c, In c seen /\ find_path g sw c = Some p) /\
      (forall c q, In c seen -> find_path g sw c = Some q -> q <> [] ->
         (List.length p <= List.length q)%nat)
  | None => forall c q, In c seen -> find_path g sw c = Some q -> q = []
  end.

Lemma nearer_core_step g sw seen acc c :
  nearest_so_far g sw seen acc ->
  nearest_so_far g sw (seen ++ [c]) (nearer_core g sw acc c).
Proof.
  intros I. unfold nearer_core.
  destruct (find_path g sw c) as [[|x path']|] eqn:E.
  - (* an empty path does not count *)
    destruct acc as [p|]; simpl in *.
    + destruct I as (N & (c0 & H0 & E0) & M). split; [exact N|]. split.
      * exists c0. split; [apply in_or_app; now left|exact E0].
      * intros c1 q H1 E1 Nq. apply in_app_or in H1. destruct H1 as [H1|[<-|[]]].
        -- now apply (M c1).
        -- rewrite E in E1. injection E1 as <-. contradiction.
    + intros c1 q H1 E1. apply in_app_or in H1. destruct H1 as [H1|[<-|[]]].
      * now apply (I c1).
      * congruence.
  - destruct acc as [p|]; simpl in *.
    + destruct I as (N & (c0 & H0 & E0) & M).
      destruct (Nat.ltb_spec (S (List.length path')) (List.length p)) as [L|L].
      * split; [discriminate|]. split.
        -- exists c. split; [apply in_or_app; right; now left|exact E].
        -- intros c1 q H1 E1 Nq. apply in_app_or in H1. destruct H1 as [H1|[<-|[]]].
           ++ specialize (M c1 q H1 E1 Nq). simpl. lia.
           ++ rewrite E in E1. injection E1 as <-. simpl. lia.
      * split; [exact N|]. split.
        -- exists c0. split; [apply in_or_app; now left|exact E0].
        -- intros c1 q H1 E1 Nq. apply in_app_or in H1. destruct H1 as [H1|[<-|[]]].
           ++ now apply (M c1).
           ++ rewrite E in E1. injection E1 as <-. simpl. lia.
    + split; [discriminate|]. split.
      * exists c. split; [apply in_or_app; right; now left|exact E].
      * intros c1 q H1 E1 Nq. apply in_app_or in H1. destruct H1 as [H1|[<-|[]]].
        -- specialize (I c1 q H1 E1). contradiction.
        -- rewrite E in E1. injection E1 as <-. simpl. lia.
  - destruct acc as [p|]; simpl in *.
    + destruct I as (N & (c0 & H0 & E0) & M). split; [exact N|]. split.
      * exists c0. split; [apply in_or_app; now left|exact E0].
      * intros c1 q H1 E1 Nq. apply in_app_or in H1. destruct H1 as [H1|[<-|[]]].
        -- now apply (M c1).
        -- congruence.
    + intros c1 q H1 E1. apply in_app_or in H1. destruct H1 as [H1|[<-|[]]].
      * now apply (I c1).
      * congruence.
Qed.

Lemma nearer_core_fold g sw cs : forall seen acc,
  nearest_so_far g sw seen acc ->
  nearest_so_far g sw (seen ++ cs) (fold_left (nearer_core g sw) cs acc).
Proof.
  induction cs as [|c cs IH]; intros seen acc I; simpl.
  - now rewrite app_nil_r.
  - replace (seen ++ c :: cs) with ((seen ++ [c]) ++ cs)
      by (rewrite <- app_assoc; reflexivity).
    apply IH. now apply nearer_core_step.
Qed.

Lemma find_path_to_core_nearest g sw :
  nearest_so_far g sw (core_switch_ids g) (find_path_to_core g sw).
Proof.
  unfold find_path_to_core.
  destruct (core_switch_ids g) as [|c cs] eqn:E.
  - intros c q [].
  - apply (nearer_core_fold g sw (c :: cs) [] None). intros c0 q [].
Qed.

(** [find_path_to_core] returns a shortest walk from the switch to a core
    switch: the path it returns ends at a core switch and no walk from the
    switch to any core switch is shorter; it returns [None] exactly when
    no core switch can be reached.  The switch and the core switches are
    switches of the graph. *)
Theorem find_path_to_core_shortest g sw :
  Dict.mem (adjacency g) sw = true ->
  (forall c, In c (core_switch_ids g) -> Dict.mem (adjacency g) c = true) ->
  match find_path_to_core g sw with
  | Some p =>
      exists c, In c (core_switch_ids g) /\ Walk (adjacency g) sw c p /\
        forall c' w, In c' (core_switch_ids g) -> Walk (adjacency g) sw c' w ->
          (List.length p <= List.length w)%nat
  | None => forall c w, In c (core_switch_ids g) -> ~ Walk (adjacency g) sw c w
  end.
Proof.
  intros Msw Mc. pose proof (find_path_to_core_nearest g sw) as I.
  destruct (find_path_to_core g sw) as [p|]; simpl in I.
  - destruct I as (N & (c & Hc & E) & M).
    exists c. split; [exact Hc|].
    pose proof (find_path_spec g sw c Msw (Mc c Hc)) as S0. rewrite E in S0.
    split; [apply S0|].
    intros c' w Hc' W.
    pose proof (find_path_spec g sw c' Msw (Mc c' Hc')) as S1.
    destruct (find_path g sw c') as [q|] eqn:E'.
    + destruct S1 as [Wq Mq]. specialize (Mq w W).
      assert (Nq : q <> []) by (apply Walk_nonempty in Wq; destruct q; [simpl in Wq; lia|discriminate]).
      specialize (M c' q Hc' E' Nq). lia.
    + exfalso. exact (S1 w W).
  - intros c w Hc W.
    pose proof (find_path_spec g sw c Msw (Mc c Hc)) as S1.
    destruct (find_path g sw c) as [q|] eqn:E'.
    + destruct S1 as [Wq _]. rewrite (I c q Hc E') in Wq.
      apply Walk_nonempty in Wq. simpl in Wq. lia.
    + exact (S1 w W).
Qed.

End GraphCoreFacts.

(** *** The core switches of [build] *)

Section CoreSwitchFacts.
Import NetworkGraph Paths.

Lemma dict_keys_set (V : Type) (m : Dict.t V) k v :
  Dict.keys (Dict.set m k v) = if Dict.mem m k then Dict.keys m else Dict.keys m ++ [k].
Proof.
  unfold Dict.mem, Dict.keys. induction m as [|[k' v'] m IH]; simpl; [reflexivity|].
  destruct (Z.eqb k' k); simpl; [reflexivity|].
  rewrite IH. now destruct (Dict.get m k).
Qed.

Lemma dict_set_keys_NoDup (V : Type) (m : Dict.t V) k v :
  NoDup (Dict.keys m) -> NoDup (Dict.keys (Dict.set m k v)).
Proof.
  intros ND. rewrite dict_keys_set. destruct (Dict.mem m k) eqn:E; [exact ND|].
  apply NoDup_app; [exact ND|repeat constructor; intros []|].
  intros x Hx [<-|[]]. apply dict_keys_get in Hx. congruence.
Qed.

Lemma dict_get_In (V : Type) (m : Dict.t V) k v :
  NoDup (Dict.keys m) -> In (k, v) m -> Dict.get m k = Some v.
Proof.
  unfold Dict.keys. induction m as [|[k' v'] m IH]; simpl; intros ND H; [contradiction|].
  inversion ND as [|? ? N1 N2]; subst.
  destruct H as [[= -> ->]|H].
  - now rewrite Z.eqb_refl.
  - destruct (Z.eqb_spec k' k) as [->|E]; [|now apply IH].
    exfalso. apply N1. apply in_map_iff. now exists (k, v).
Qed.

Lemma dict_get_Some_In (V : Type) (m : Dict.t V) k v :
  Dict.get m k = Some v -> In (k, v) m.
Proof.
  induction m as [|[k' v'] m IH]; simpl; [discriminate|].
  destruct (Z.eqb_spec k' k) as [->|E]; [intros [= ->]; now left|auto].
Qed.

Lemma ensure_keys_NoDup adj k : NoDup (Dict.keys adj) -> NoDup (Dict.keys (ensure adj k)).
Proof.
  intros ND. unfold ensure. destruct (Dict.mem adj k); [exact ND|].
  now apply dict_set_keys_NoDup.
Qed.

Lemma set_edge_keys_NoDup adj a b data :
  NoDup (Dict.keys adj) -> NoDup (Dict.keys (set_edge adj a b data)).
Proof.
  intros ND. unfold set_edge. destruct (Dict.get adj a); [|exact ND].
  now apply dict_set_keys_NoDup.
Qed.

Lemma build_keys_NoDup d : NoDup (Dict.keys (adjacency (build d))).
Proof.
  unfold build; simpl.
  assert (A : forall sws adj, NoDup (Dict.keys adj) ->
                NoDup (Dict.keys (fold_left add_switch sws adj))).
  { induction sws as [|sw sws IH]; intros adj ND; simpl; [exact ND|].
    apply IH. now apply dict_set_keys_NoDup. }
  assert (B : forall links adj, NoDup (Dict.keys adj) ->
                NoDup (Dict.keys (fold_left add_link links adj))).
  { induction links as [|l links IH]; intros adj ND; simpl; [exact ND|].
    apply IH. unfold add_link.
    now repeat (apply set_edge_keys_NoDup || apply ensure_keys_NoDup). }
  apply B, A. constructor.
Qed.

(** The order [sort(..., reverse=True)] leaves: no entry has a greater
    degree than one before it. *)
Definition by_degree (x y : Z * nat) : Prop := (snd y <= snd x)%nat.

Lemma insert_by_degree_perm x l : Permutation (x :: l) (insert_by_degree x l).
Proof.
  induction l as [|y l IH]; simpl; [reflexivity|].
  destruct (Nat.ltb (snd y) (snd x)); [reflexivity|].
  rewrite perm_swap. now constructor.
Qed.

Lemma insert_by_degree_sorted x l :
  StronglySorted by_degree l -> StronglySorted by_degree (insert_by_degree x l).
Proof.
  induction l as [|y l IH]; intros HS; simpl.
  - repeat constructor.
  - inversion HS as [|? ? S1 S2]; subst.
    destruct (Nat.ltb_spec (snd y) (snd x)) as [L|L].
    + constructor; [exact HS|]. constructor.
      * unfold by_degree. lia.
      * rewrite Forall_forall in *. intros z Hz. specialize (S2 z Hz).
        unfold by_degree in *. lia.
    + constructor; [now apply IH|].
      rewrite Forall_forall in *. intros z Hz.
      apply (Permutation_in _ (Permutation_sym (insert_by_degree_perm x l))) in Hz.
      destruct Hz as [<-|Hz]; [exact L|now apply S2].
Qed.

Lemma sort_by_degree_fold l : forall acc,
  StronglySorted by_degree acc ->
  Permutation (acc ++ l) (fold_left (fun acc x => insert_by_degree x acc) l acc) /\
  StronglySorted by_degree (fold_left (fun acc x => insert_by_degree x acc) l acc).
Proof.
  induction l as [|x l IH]; intros acc HS; simpl.
  - rewrite app_nil_r. now split.
  - destruct (IH (insert_by_degree x acc) (insert_by_degree_sorted x acc HS)) as [P S1].
    split; [|exact S1].
    rewrite <- P. rewrite <- (insert_by_degree_perm x acc).
    symmetry. apply Permutation_middle.
Qed.

Lemma sort_by_degree_spec l :
  Permutation l (sort_by_degree l) /\ StronglySorted by_degree (sort_by_degree l).
Proof. apply (sort_by_degree_fold l []). constructor. Qed.

Lemma sorted_firstn_skipn (l : list (Z * nat)) : forall n a b,
  StronglySorted by_degree l ->
  In a (firstn n l) -> In b (skipn n l) -> by_degree a b.
Proof.
  induction l as [|x l IH]; intros [|n] a b HS Ha Hb; simpl in *; try contradiction.
  inversion HS as [|? ? S1 S2]; subst.
  destruct Ha as [<-|Ha].
  - rewrite Forall_forall in S2. apply S2.
    rewrite <- (firstn_skipn n l). apply in_or_app. now right.
  - now apply (IH n).
Qed.

(** [build] names as core switches at most five switches of the graph,
    each once, and prefers the switches with the most neighbors: no switch
    left out has more neighbors than a core switch; a graph of five
    switches or fewer has them all as core switches. *)
Theorem build_core_switches (d : Db.t) :
  let g := build d in
  (List.length (core_switch_ids g) <= 5)%nat /\
  NoDup (core_switch_ids g) /\
  (forall c, In c (core_switch_ids g) -> Dict.mem (adjacency g) c = true) /\
  (forall c x, In c (core_switch_ids g) -> Dict.mem (adjacency g) x = true ->
     ~ In x (core_switch_ids g) ->
     (List.length (neighbors (adjacency g) x) <= List.length (neighbors (adjacency g) c))%nat) /\
  ((List.length (Dict.keys (adjacency g)) <= 5)%nat ->
   forall x, Dict.mem (adjacency g) x = true -> In x (core_switch_ids g)).
Proof.
  intros g. pose proof (build_keys_NoDup d) as ND. fold g in ND.
  set (adj := adjacency g) in *.
  set (conn := map (fun kv : Z * Dict.t link_data => (fst kv, List.length (snd kv))) adj).
  assert (Ecore : core_switch_ids g = map fst (firstn 5 (sort_by_degree conn)))
    by reflexivity.
  destruct (sort_by_degree_spec conn) as [P HS].
  assert (Kconn : map fst conn = Dict.keys adj).
  { unfold conn, Dict.keys. rewrite map_map. reflexivity. }
  assert (Deg : forall e, In e conn ->
            Dict.mem adj (fst e) = true /\
            snd e = List.length (neighbors adj (fst e))).
  { intros e He. unfold conn in He. apply in_map_iff in He.
    destruct He as ([k row] & <- & Hk). simpl.
    pose proof (dict_get_In _ adj k row ND Hk) as G.
    split.
    - unfold Dict.mem. now rewrite G.
    - unfold neighbors, Dict.keys. rewrite G. now rewrite length_map. }
  assert (Conn : forall x, Dict.mem adj x = true ->
            In (x, List.length (neighbors adj x)) conn).
  { intros x Mx. unfold Dict.mem in Mx. destruct (Dict.get adj x) as [row|] eqn:G; [|discriminate].
    unfold conn. apply in_map_iff. exists (x, row). split.
    - simpl. unfold neighbors, Dict.keys. rewrite G. now rewrite length_map.
    - now apply dict_get_Some_In. }
  assert (NDs : NoDup (map fst (sort_by_degree conn))).
  { apply (Permutation_NoDup (Permutation_map fst P)). now rewrite Kconn. }
  split; [|split; [|split; [|split]]].
  - rewrite Ecore, length_map. apply firstn_le_length.
  - rewrite Ecore. rewrite <- (firstn_skipn 5 (sort_by_degree conn)), map_app in NDs.
    now apply NoDup_app_remove_r in NDs.
  - intros c Hc. rewrite Ecore in Hc. apply in_map_iff in Hc.
    destruct Hc as (e & <- & He).
    apply Deg. apply (Permutation_in _ (Permutation_sym P)).
    rewrite <- (firstn_skipn 5 (sort_by_degree conn)). apply in_or_app. now left.
  - intros c x Hc Mx Nx. rewrite Ecore in Hc, Nx. apply in_map_iff in Hc.
    destruct Hc as (e & <- & He).
    assert (Hx : In (x, List.length (neighbors adj x)) (skipn 5 (sort_by_degree conn))).
    { pose proof (Permutation_in _ P (Conn x Mx)) as H.
      rewrite <- (firstn_skipn 5 (sort_by_degree conn)) in H.
      apply in_app_or in H. destruct H as [H|H]; [|exact H].
      exfalso. apply Nx. apply in_map_iff. now exists (x, List.length (neighbors adj x)). }
    pose proof (sorted_firstn_skipn _ 5 _ _ HS He Hx) as L. unfold by_degree in L. simpl in L.
    assert (He' : In e conn).
    { apply (Permutation_in _ (Permutation_sym P)).
      rewrite <- (firstn_skipn 5 (sort_by_degree conn)). apply in_or_app. now left. }
    destruct (Deg e He') as [_ De]. lia.
  - intros L x Mx. rewrite Ecore.
    assert (Len : (List.length (sort_by_degree conn) <= 5)%nat).
    { rewrite <- (Permutation_length P). unfold conn. rewrite length_map.
      unfold Dict.keys in L. now rewrite length_map in L. }
    rewrite firstn_all2 by exact Len.
    apply in_map_iff. exists (x, List.length (neighbors adj x)). split; [reflexivity|].
    apply (Permutation_in _ P). now apply Conn.
Qed.

End CoreSwitchFacts.

Section GraphCoreExamples.
Import NetworkGraph Paths.
Local Open Scope Z_scope.

Example build_tree_core_switches :
  core_switch_ids (build Samples.tree_example) = [2; 3; 1; 4; 5].
Proof. reflexivity. Qed.

Example find_path_to_core_tree_6 :
  find_path_to_core (build Samples.tree_example) 6 = Some [6; 3].
Proof. reflexivity. Qed.

Lemma find_path_shortest_witness :
  let g := build Samples.ring_example in
  find_path g 1 4 = Some [1; 3; 4] /\
  Walk (adjacency g) 1 4 [1; 3; 4] /\
  forall w, Walk (adjacency g) 1 4 w -> (List.length [1; 3; 4] <= List.length w)%nat.
Proof.
  intros g. split; [reflexivity|].
  apply (find_path_shortest g 1 4 [1; 3; 4]). reflexivity.
Defined.

Lemma find_path_to_core_shortest_witness :
  let g := build Samples.tree_example in
  Dict.mem (adjacency g) 6 = true /\
  (forall c, In c (core_switch_ids g) -> Dict.mem (adjacency g) c = true) /\
  match find_path_to_core g 6 with
  | Some p =>
      exists c, In c (core_switch_ids g) /\ Walk (adjacency g) 6 c p /\
        forall c' w, In c' (core_switch_ids g) -> Walk (adjacency g) 6 c' w ->
          (List.length p <= List.length w)%nat
  | None => forall c w, In c (core_switch_ids g) -> ~ Walk (adjacency g) 6 c w
  end.
Proof.
  intros g.
  assert (H6 : Dict.mem (adjacency g) 6 = true) by reflexivity.
  assert (Hc : forall c, In c (core_switch_ids g) -> Dict.mem (adjacency g) c = true).
  { intros c H. vm_compute in H.
    destruct H as [<-|[<-|[<-|[<-|[<-|[]]]]]]; reflexivity. }
  split; [exact H6|]. split; [exact Hc|].
  exact (find_path_to_core_shortest g 6 H6 Hc).
Defined.

End GraphCoreExamples.

(** ** The port-merge pass: what it leaves behind *)

Section PortMergeAfter.
Import LldpDiscovery.

Lemma duplicates_spec d sw idx :
  In (sw, idx) (duplicates d) ->
  (0 < idx)%Z /\ (2 <= List.length (ports_of_key d (sw, idx)))%nat.
Proof.
  unfold duplicates. rewrite dedup_keys_In, in_flat_map.
  intros (p & Hp & Hk).
  destruct (port_key p) as [k|] eqn:K; [|contradiction].
  destruct (Nat.ltb_spec 1 (List.length (filter (has_key k) (Db.ports d)))) as [L|L];
    [|contradiction].
  destruct Hk as [->|[]].
  assert (Hi : (0 < idx)%Z).
  { unfold port_key in K. destruct (Port.port_index p) as [i|]; [|discriminate].
    destruct (Z.ltb_spec 0 i); [|discriminate]. injection K as _ <-. assumption. }
  split; [exact Hi|].
  unfold ports_of_key.
  rewrite <- (filter_ext _ _ (fun q => has_key_in_group sw idx q Hi)). lia.
Qed.

Lemma key_in_dec (k : Z * Z) ks : {In k ks} + {~ In k ks}.
Proof. apply in_dec. decide equality; apply Z.eq_dec. Qed.

Lemma group_single_after d sw idx :
  NoDup (port_ids d) -> (0 < idx)%Z ->
  (List.length (ports_of_key (fst (_cleanup_duplicate_ports d)) (sw, idx)) <= 1)%nat.
Proof.
  intros ND Hi.
  destruct (cleanup_fold (duplicates d) d O ND (dedup_keys_NoDup _))
    as (F & _ & _ & Fr & _ & G).
  fold (_cleanup_duplicate_ports d) in *.
  destruct (key_in_dec (sw, idx) (duplicates d)) as [Hk|Hk].
  - destruct (duplicates_spec d sw idx Hk) as [_ L].
    destruct (ports_of_key d (sw, idx)) as [|p0 rest] eqn:HG; [simpl in L; lia|].
    destruct (G (sw, idx) p0 rest Hk HG) as ((q & -> & _) & _). simpl. lia.
  - rewrite (Fr _ Hk).
    destruct (Nat.le_gt_cases (List.length (ports_of_key d (sw, idx))) 1) as [L|L];
      [exact L|].
    exfalso. apply Hk. now apply in_duplicates.
Qed.

Lemma flat_map_nil (A B : Type) (f : A -> list B) l :
  (forall x, In x l -> f x = []) -> flat_map f l = [].
Proof.
  induction l as [|a l IH]; intros H; simpl; [reflexivity|].
  rewrite (H a) by now left. apply IH. intros x Hx. apply H. now right.
Qed.

(** After one run of the port-merge pass no two Port rows of a switch
    share a positive [port_index], so a second run finds no group to
    merge: it returns 0 and leaves the store as it is.  The ids of the
    ports table are its primary key. *)
Theorem cleanup_duplicate_ports_idempotent (d : Db.t) :
  NoDup (port_ids d) ->
  let d' := fst (_cleanup_duplicate_ports d) in
  duplicates d' = [] /\ _cleanup_duplicate_ports d' = (d', O).
Proof.
  intros ND d'.
  assert (E : duplicates d' = []).
  { unfold duplicates. rewrite flat_map_nil; [reflexivity|].
    intros p Hp. destruct (port_key p) as [[sw idx]|] eqn:K; [|reflexivity].
    assert (Hi : (0 < idx)%Z).
    { unfold port_key in K. destruct (Port.port_index p) as [i|]; [|discriminate].
      destruct (Z.ltb_spec 0 i); [|discriminate]. injection K as _ <-. assumption. }
    rewrite (filter_ext _ _ (fun q => has_key_in_group sw idx q Hi)).
    fold (ports_of_key d' (sw, idx)).
    pose proof (group_single_after d sw idx ND Hi) as L. fold d' in L.
    destruct (Nat.ltb_spec 1 (List.length (ports_of_key d' (sw, idx)))); [lia|reflexivity]. }
  split; [exact E|].
  unfold _cleanup_duplicate_ports at 1. rewrite E. reflexivity.
Qed.

End PortMergeAfter.

(** *** The count the pass returns *)

Section PortMergeCount.
Import LldpDiscovery.







End PortMergeCount.

Section PortMergeAfterExamples.
Import LldpDiscovery.
Local Open Scope Z_scope.

Lemma merge_example_port_ids : NoDup (port_ids Samples.merge_example).
Proof. unfold port_ids. simpl. repeat constructor; simpl; intuition lia. Defined.

Lemma cleanup_duplicate_ports_idempotent_witness :
  NoDup (port_ids Samples.merge_example) /\
  let d' := fst (_cleanup_duplicate_ports Samples.merge_example) in
  duplicates d' = [] /\ _cleanup_duplicate_ports d' = (d', O).
Proof.
  split; [exact merge_example_port_ids|].
  exact (cleanup_duplicate_ports_idempotent Samples.merge_example merge_example_port_ids).
Defined.


End PortMergeAfterExamples.

(** ** The location classifier *)

Section SessionFacts.
Import Session.

Lemma number_locations_nil n : number_locations n [] = [].
Proof. reflexivity. Qed.

Lemma flush_ports s : Db.ports (store (flush s)) = Db.ports (mem s).
Proof. reflexivity. Qed.

Lemma flush_mac_addresses s :
  Db.mac_addresses (store (flush s)) = Db.mac_addresses (mem s).
Proof. reflexivity. Qed.

Lemma flush_mac_locations s :
  Db.mac_locations (store (flush s)) =
  Db.mac_locations (mem s) ++
  number_locations (next_id (map MacLocation.id (Db.mac_locations (mem s))))
                   (pending_locations s).
Proof. reflexivity. Qed.

Lemma flush_mac_history s :
  Db.mac_history (store (flush s)) =
  Db.mac_history (mem s) ++
  number_history (next_id (map MacHistory.id (Db.mac_history (mem s))))
                 (pending_history s).
Proof. reflexivity. Qed.

Lemma flush_mem s : mem (flush s) = store (flush s).
Proof. reflexivity. Qed.

Lemma find_none_all (A : Type) (f : A -> bool) l :
  (forall x, In x l -> f x = false) -> find f l = None.
Proof.
  induction l as [|a l IH]; intros H; simpl; [reflexivity|].
  rewrite (H a) by now left. apply IH. intros x Hx. apply H. now right.
Qed.

Lemma filter_none_all (A : Type) (f : A -> bool) l :
  (forall x, In x l -> f x = false) -> filter f l = [].
Proof.
  induction l as [|a l IH]; intros H; simpl; [reflexivity|].
  rewrite (H a) by now left. apply IH. intros x Hx. apply H. now right.
Qed.

End SessionFacts.

Section FirstSighting.
Import Session SnmpDiscovery.

(** No location of the session is current, in the store or in memory,
    and no location waits for the flush. *)
Definition nothing_current (s : Session.t) : Prop :=
  (forall l, In l (Db.mac_locations (store s)) -> MacLocation.is_current l = false) /\
  (forall l, In l (Db.mac_locations (mem s)) -> MacLocation.is_current l = false) /\
  pending_locations s = [].

Lemma nothing_current_insert_port s f :
  nothing_current s ->
  nothing_current (insert (fun d => Db.set_ports (f d) d) s).
Proof.
  intros (H1 & H2 & H3). unfold nothing_current, insert. simpl.
  rewrite H3. simpl. rewrite app_nil_r. auto.
Qed.

Lemma nothing_current_insert_mac s f :
  nothing_current s ->
  nothing_current (insert (fun d => Db.set_mac_addresses (f d) d) s).
Proof.
  intros (H1 & H2 & H3). unfold nothing_current, insert. simpl.
  rewrite H3. simpl. rewrite app_nil_r. auto.
Qed.

Lemma get_or_create_port_nothing_current sw name idx vlan s :
  nothing_current s ->
  nothing_current (fst (get_or_create_port sw name idx vlan s)) /\
  durable (fst (get_or_create_port sw name idx vlan s)) = durable s /\
  log (fst (get_or_create_port sw name idx vlan s)) = log s.
Proof.
  intros H. unfold get_or_create_port.
  destruct (query_port_by_name s (Switch.id sw) name) as [port|]; simpl.
  - split; [exact H|]. split; reflexivity.
  - split; [|split; reflexivity].
    apply (nothing_current_insert_port s
             (fun d => Db.ports d ++
                [Port.mk (next_id (map Port.id (Db.ports d))) (Switch.id sw) name
                         (Some idx)
                         (if is_uplink_by_name name then "trunk" else "access")%string
                         (Some vlan) (is_uplink_by_name name) 0 None None])).
    exact H.
Qed.

Lemma get_or_create_mac_nothing_current now a s :
  nothing_current s ->
  nothing_current (fst (fst (get_or_create_mac now a s))) /\
  durable (fst (fst (get_or_create_mac now a s))) = durable s /\
  log (fst (fst (get_or_create_mac now a s))) = log s.
Proof.
  intros H. unfold get_or_create_mac.
  destruct (query_mac_by_address s a) as [mac|]; simpl.
  - split; [exact H|]. split; reflexivity.
  - split; [|split; reflexivity].
    apply (nothing_current_insert_mac s
             (fun d => Db.mac_addresses d ++
                [MacAddress.mk (next_id (map MacAddress.id (Db.mac_addresses d))) a
                               (Some (Py.remove_char ":" (Py.take 8 a))) now now true])).
    exact H.
Qed.

Lemma query_current_location_none s mid :
  nothing_current s -> query_current_location s mid = None.
Proof.
  intros (H & _). unfold query_current_location.
  rewrite find_none_all; [reflexivity|].
  intros l Hl. rewrite (H l Hl). apply andb_false_r.
Qed.

(** On a store without a current location (a new installation, or one
    whose locations have all been retired) a pass over a snapshot that is
    not empty never gets past its first row: the row reads the local
    variable [ENDPOINT_OUIS] before any assignment to it and the pass
    leaves with the exception.  Nothing has been committed by then. *)
Theorem process_mac_entries_first_sighting_raises
        (now : Z) (sw : Switch.t) (e : entry) (rest : list entry) (d : Db.t) :
  (forall l, In l (Db.mac_locations d) -> MacLocation.is_current l = false) ->
  exists s',
    _process_mac_entries now sw (e :: rest) (Session.open d) = Raises s' /\
    durable s' = d /\ log s' = [].
Proof.
  intros H.
  assert (N0 : nothing_current (Session.open d)) by (repeat split; auto).
  unfold _process_mac_entries.
  assert (ES : stale_cleanup now sw (e :: rest) (Session.open d) = Session.open d).
  { unfold stale_cleanup. cbn [store Session.open].
    rewrite filter_none_all; [reflexivity|].
    intros l Hl. rewrite (H l Hl). apply andb_false_r. }
  rewrite ES. cbn [entries_loop]. unfold process_entry.
  pose proof (get_or_create_port_nothing_current sw
                (PortUtils.normalize_port_name (e_port_name e))
                (match e_port_index e with Some i => i | None => 0%Z end)
                (match e_vlan_id e with Some v => v | None => 1%Z end)
                (Session.open d) N0) as (N1 & D1 & L1).
  destruct (get_or_create_port _ _ _ _ _) as [s1 pid]. simpl in N1, D1, L1.
  pose proof (get_or_create_mac_nothing_current now (e_mac_address e) s1 N1)
    as (N2 & D2 & L2).
  destruct (get_or_create_mac _ _ _) as [[s2 mid] is_new]. simpl in N2, D2, L2.
  rewrite (query_current_location_none s2 mid N2). simpl.
  exists s2. split; [reflexivity|]. split; congruence.
Qed.

End FirstSighting.

Section KeyedTables.
Variable A : Type.
Variable key : A -> Z.

(** [find] on a table whose [key] column is a key. *)
Lemma find_by_key l x :
  NoDup (map key l) -> In x l -> find (fun y => Z.eqb (key y) (key x)) l = Some x.
Proof.
  induction l as [|a l IH]; simpl; intros ND H; [contradiction|].
  inversion ND as [|? ? N1 N2]; subst.
  destruct H as [->|H]; [now rewrite Z.eqb_refl|].
  destruct (Z.eqb_spec (key a) (key x)) as [E|E]; [|now apply IH].
  exfalso. apply N1. rewrite E. now apply in_map.
Qed.

Lemma find_by_key_none l k :
  (forall x, In x l -> key x <> k) -> find (fun y => Z.eqb (key y) k) l = None.
Proof.
  intros H. apply find_none_all. intros x Hx. apply Z.eqb_neq. now apply H.
Qed.

(** An update of the row with key [k0] that keeps the keys. *)
Definition update_row (k0 : Z) (f : A -> A) (l : list A) : list A :=
  map (fun y => if Z.eqb (key y) k0 then f y else y) l.

Lemma update_row_keys k0 f l :
  (forall y, key (f y) = key y) -> map key (update_row k0 f l) = map key l.
Proof.
  intros H. unfold update_row. rewrite map_map. apply map_ext. intros y.
  destruct (Z.eqb (key y) k0); [apply H|reflexivity].
Qed.

Lemma find_update_row k0 f l k :
  (forall y, key (f y) = key y) ->
  find (fun y => Z.eqb (key y) k) (update_row k0 f l) =
  option_map (fun y => if Z.eqb (key y) k0 then f y else y)
             (find (fun y => Z.eqb (key y) k) l).
Proof.
  intros H. unfold update_row. induction l as [|a l IH]; simpl; [reflexivity|].
  assert (E : key (if Z.eqb (key a) k0 then f a else a) = key a)
    by (destruct (Z.eqb (key a) k0); [apply H|reflexivity]).
  rewrite E. destruct (Z.eqb (key a) k); [reflexivity|exact IH].
Qed.

End KeyedTables.

Section RoleFacts.
Import SnmpDiscovery.

Lemma reclassify_id b p : Port.id (reclassify b p) = Port.id p.
Proof.
  unfold reclassify.
  repeat match goal with
         | |- context [if ?c then _ else _] => destruct c
         end; reflexivity.
Qed.

Lemma reclassify_neighbor_type b p :
  Port.lldp_neighbor_type (reclassify b p) = Port.lldp_neighbor_type p.
Proof.
  unfold reclassify.
  repeat match goal with
         | |- context [if ?c then _ else _] => destruct c
         end; reflexivity.
Qed.

(** After the role update of a row, the flag stored on the port is the
    flag the location decision uses for it. *)
Lemma new_port_is_uplink_reclassify b p :
  new_port_is_uplink (reclassify b p) = Port.is_uplink (reclassify b p).
Proof.
  unfold new_port_is_uplink. rewrite reclassify_neighbor_type.
  unfold reclassify, truthy, opt_str_in, opt_str_eqb, Py.str_in.
  destruct (Port.lldp_neighbor_type p) as [ty|]; simpl.
  - destruct (String.eqb_spec ty "ap") as [->|Nap]; [reflexivity|].
    destruct (String.eqb_spec ty "phone") as [->|Nph]; [reflexivity|].
    destruct (String.eqb_spec ty "switch") as [->|Nsw]; simpl.
    { destruct (Port.is_uplink p) eqn:U; simpl; [exact (eq_sym U)|reflexivity]. }
    destruct (String.eqb_spec ty "router") as [->|Nro]; simpl.
    { destruct (Port.is_uplink p) eqn:U; simpl; [exact (eq_sym U)|reflexivity]. }
    destruct (Py.is_empty ty); simpl.
    + destruct (b && negb (Port.is_uplink p))%bool; reflexivity.
    + destruct (String.eqb ty "unknown"); simpl; [|reflexivity].
      destruct (Port.is_uplink p) eqn:U; simpl; reflexivity.
  - destruct (b && negb (Port.is_uplink p))%bool; reflexivity.
Qed.

End RoleFacts.
